(** * security-manager frontend: Dashboard and ReportModal

    A shallow embedding of the pure derivations and of the state updates of
    [frontend/src/components/Dashboard.tsx], [ReportModal.tsx] and
    [frontend/src/api/client.ts], with the properties the console's
    description states about them.

    Conventions of the embedding.
    - A JavaScript string is a Rocq [string] holding its UTF-8 bytes.  Every
      literal the code compares against is ASCII, and a byte below 128 never
      occurs inside the encoding of a character above U+007F, so splitting at
      a line feed, substring search and prefix tests act on the bytes as they
      act on the characters.
    - A JavaScript number that the code only ever uses as an integer (token
      counts, epoch milliseconds) is a [Z].  Where the code can meet [NaN]
      (the time value of an invalid date) the type [number] adds it.  The
      sums of token counts round as binary64 numbers do ([JS.add]). *)

From Stdlib Require Import ZArith Bool List Ascii String Lia.
From Stdlib Require Import DecimalString DecimalPos DecimalZ.
From stdpp Require Import base option gmap strings.

Local Open Scope string_scope.
Local Open Scope Z_scope.

(** ** JavaScript primitives used by the components *)

Module JS.

(** Numbers: an integer or [NaN]. *)
Inductive number : Type :=
| Num (z : Z)
| NaN.

(** [a - b] *)
Definition sub (a b : number) : number :=
  match a, b with
  | Num x, Num y => Num (x - y)
  | _, _ => NaN
  end.

(** [Math.floor(a / k)] for a positive integer constant [k]. *)
Definition floor_div (a : number) (k : Z) : number :=
  match a with
  | Num x => Num (x / k)
  | NaN => NaN
  end.

(** [a % k]: the remainder has the sign of the dividend. *)
Definition rem (a : number) (k : Z) : number :=
  match a with
  | Num x => Num (Z.rem x k)
  | NaN => NaN
  end.

(** [a < k]; every comparison with [NaN] is false. *)
Definition ltb (a : number) (k : Z) : bool :=
  match a with
  | Num x => x <? k
  | NaN => false
  end.

(** [n.toString()] of an integer (below 1e21 in magnitude, where JavaScript
    prints all the digits). *)
Definition Z_toString (z : Z) : string :=
  NilZero.string_of_int (Z.to_int z).

Definition toString (n : number) : string :=
  match n with
  | Num z => Z_toString z
  | NaN => "NaN"
  end.

(** [fill] repeated and cut to [n] characters. *)
Fixpoint fill_cycle (n : nat) (fill cur : string) : string :=
  match n with
  | O => ""
  | S n' =>
      match cur with
      | String c cur' => String c (fill_cycle n' fill cur')
      | EmptyString =>
          match fill with
          | String c fill' => String c (fill_cycle n' fill fill')
          | EmptyString => ""
          end
      end
  end.

(** [s.padStart(target, fill)] *)
Definition padStart (s : string) (target : nat) (fill : string) : string :=
  fill_cycle (target - String.length s) fill fill +:+ s.

Definition is_upper (c : ascii) : bool :=
  ((65 <=? nat_of_ascii c) && (nat_of_ascii c <=? 90))%nat.

Definition lower_char (c : ascii) : ascii :=
  if is_upper c then ascii_of_nat (nat_of_ascii c + 32) else c.

(** [s.toLowerCase()] on the ASCII letters; the other bytes are kept.  The
    code only compares the result with the all-ASCII literals ['pending'],
    ['queued'] and ['finished'].  The two characters above U+007F whose
    lower case contains an ASCII letter are U+212A (to [k], a letter that is
    in none of the three) and U+0130 (to [i] followed by U+0307, which no
    literal has after an [i]), so these comparisons come out as in
    JavaScript for every input. *)
Fixpoint toLowerCase (s : string) : string :=
  match s with
  | EmptyString => EmptyString
  | String c s' => String (lower_char c) (toLowerCase s')
  end.

(** [s.split(sep)] for a one-character separator. *)
Fixpoint split (sep : ascii) (s : string) : list string :=
  match s with
  | EmptyString => [EmptyString]
  | String c s' =>
      if Ascii.eqb c sep then EmptyString :: split sep s'
      else
        match split sep s' with
        | h :: t => String c h :: t
        | [] => [String c EmptyString]
        end
  end.

(** [s.includes(sub)] *)
Fixpoint includes (s sub : string) : bool :=
  String.prefix sub s ||
  match s with
  | EmptyString => false
  | String _ s' => includes s' sub
  end.

(** Truthiness of an optional string ([undefined], [null] and the empty
    string are falsy). *)
Definition truthy (o : option string) : bool :=
  match o with
  | Some s => negb (String.eqb s "")
  | None => false
  end.

(** *** Sums of counts

    A count is a binary64 number that holds an integer.  Up to 2^53 in
    magnitude every integer is such a number; from there on only the
    multiples of a power of two are, and the sum of two numbers is the exact
    sum rounded to the nearest of them, to the even one in a tie. *)
Definition exact_limit : Z := 9007199254740992.

(** The binary64 number nearest to an integer [a >= 0]: [a] itself below
    2^53, else [a] rounded to 53 significant bits. *)
Definition round64_mag (a : Z) : Z :=
  if a <? exact_limit then a
  else
    let e := Z.log2 a - 52 in
    let q := a / 2 ^ e in
    let r := a mod 2 ^ e in
    let half := 2 ^ (e - 1) in
    let q' :=
      if r <? half then q
      else if half <? r then q + 1
      else if Z.even q then q else q + 1 in
    q' * 2 ^ e.

Definition round64 (z : Z) : Z := Z.sgn z * round64_mag (Z.abs z).

(** [a + b] on two counts, for a sum below 2^1024 in magnitude, where a
    binary64 number is still finite. *)
Definition add (a b : Z) : Z := round64 (a + b).

End JS.

(** ** api/client.ts: the payload types *)

Module Client.

(** Each interface is a module with its record [t], so that the fields keep
    the names they have in the source. *)

Module ScanResult.
Record t : Type := {
  id : Z;
  repo : string;
  status : string;
  created_at : string;
  ended_at : option string;
  tokens_used : Z;
}.
End ScanResult.

Module ScanLog.
Record t : Type := {
  step : string;
  tokens_input : Z;
  tokens_output : Z;
  tokens_total : Z;
  model : string;
  message : string;
  timestamp : string;
}.
End ScanLog.

Module Vulnerability.
Record t : Type := {
  id : string;
  path : string;
  line : Z;
  msg : string;
  severity : string;
  type : string;
}.
End Vulnerability.

Module Scanner.
Record t : Type := {
  vulnerabilities : list Vulnerability.t;
  detected_libraries : gmap string (list string);
}.
End Scanner.

Module Ecosystem.
Record t : Type := {
  language : string;
  docker_image : string;
  dep_install_cmd : string;
}.
End Ecosystem.

Module Analysis.
Record t : Type := {
  id : string;
  path : string;
  msg : string;
  severity : string;
}.
End Analysis.

Module Remediation.
Record t : Type := {
  path : string;
  original_code : string;
  fix_code : string;
  test_code : string;
  type : string;
}.
End Remediation.

Module Verification.
Record t : Type := {
  path : string;
  verified : bool;
  error : option string;
}.
End Verification.

Module Summary.
Record t : Type := {
  verified_fixes : Z;
  total_vulnerabilities : Z;
}.
End Summary.

(** The anonymous type of the field [report] of [ScanReport]: every key is
    optional. *)
Module Envelope.
Record t : Type := {
  scanner : option Scanner.t;
  ecosystem : option Ecosystem.t;
  analysis : option (list Analysis.t);
  remediation : option (list Remediation.t);
  verification : option (list Verification.t);
  report : option Summary.t;
  error : option string;
  (** The other own keys of the object: the keys whose value is [null]
      and the keys outside the interface.  The component reads a field
      that is [null] as it reads a missing one, and [Object.keys] counts
      its key. *)
  other_keys : list string;
}.

(** The object [{}]. *)
Definition empty : t :=
  {| scanner := None; ecosystem := None; analysis := None;
     remediation := None; verification := None; report := None;
     error := None; other_keys := [] |}.

Definition key {A : Type} (k : string) (field : option A) : list string :=
  match field with
  | Some _ => [k]
  | None => []
  end.

(** [Object.keys(e)]: every own key, up to their order. *)
Definition keys (e : t) : list string :=
  key "scanner" (scanner e) ++ key "ecosystem" (ecosystem e) ++
  key "analysis" (analysis e) ++ key "remediation" (remediation e) ++
  key "verification" (verification e) ++ key "report" (report e) ++
  key "error" (error e) ++ other_keys e.
End Envelope.

(** [report] is declared as always present, but the component tests it for
    falsiness before it reads it, so the embedding lets it be [null]. *)
Module ScanReport.
Record t : Type := {
  id : Z;
  repo : string;
  status : string;
  created_at : string;
  report : option Envelope.t;
}.
End ScanReport.

End Client.

(** ** api/client.ts: the requests *)

Module Api.

(** The query parameters that [triggerScan] passes to [POST /scan]. *)
Definition triggerScan_params (repoUrl : string)
    (targetUrl githubToken : option string) : gmap string string :=
  let params : gmap string string := <["repo_url" := repoUrl]> ∅ in
  let params :=
    if JS.truthy targetUrl
    then <["target_url" := default "" targetUrl]> params else params in
  let params :=
    if JS.truthy githubToken
    then <["github_token" := default "" githubToken]> params else params in
  params.

(** The paths of the requests about one job: [`/scans/${scanId}/cancel`],
    [`/scans/${scanId}/logs`] and [`/scans/${scanId}/report`], for a job id
    that is an integer. *)
Definition cancelScan_path (scanId : Z) : string :=
  "/scans/" +:+ JS.Z_toString scanId +:+ "/cancel".

Definition getScanLogs_path (scanId : Z) : string :=
  "/scans/" +:+ JS.Z_toString scanId +:+ "/logs".

Definition getScanReport_path (scanId : Z) : string :=
  "/scans/" +:+ JS.Z_toString scanId +:+ "/report".

End Api.

(** ** components/Dashboard.tsx *)

Module Dashboard.
Import Client.

(** The component's state: one field per [useState] hook. *)
Record State : Type := mkState {
  scans : list ScanResult.t;
  loading : bool;
  error : option string;
  selectedScanId : option Z;
  scanLogs : list ScanLog.t;
  logsLoading : bool;
  reportScanId : option Z;
  currentTime : Z;
}.

(** The state on mount; [now] is the clock when the component is created. *)
Definition initial (now : Z) : State :=
  {| scans := []; loading := true; error := None; selectedScanId := None;
     scanLogs := []; logsLoading := false; reportScanId := None;
     currentTime := now |}.

(** *** State updates

    A handler is a state transformer; [a ;; b] runs [a] and then [b]. *)
Definition action : Type := State -> State.

Definition skip : action := fun st => st.

Definition and_then (a b : action) : action := fun st => b (a st).

Declare Scope action_scope.
Delimit Scope action_scope with act.
Bind Scope action_scope with action.
Notation "a ;; b" := (and_then a b%act)
  (at level 100, b at level 200, right associativity) : action_scope.

(** [if (c) a;] *)
Definition when (c : bool) (a : action) : action := if c then a else skip.

Definition setScans (v : list ScanResult.t) : action := fun st =>
  {| scans := v; loading := loading st; error := error st;
     selectedScanId := selectedScanId st; scanLogs := scanLogs st;
     logsLoading := logsLoading st; reportScanId := reportScanId st;
     currentTime := currentTime st |}.

Definition setLoading (v : bool) : action := fun st =>
  {| scans := scans st; loading := v; error := error st;
     selectedScanId := selectedScanId st; scanLogs := scanLogs st;
     logsLoading := logsLoading st; reportScanId := reportScanId st;
     currentTime := currentTime st |}.

Definition setError (v : option string) : action := fun st =>
  {| scans := scans st; loading := loading st; error := v;
     selectedScanId := selectedScanId st; scanLogs := scanLogs st;
     logsLoading := logsLoading st; reportScanId := reportScanId st;
     currentTime := currentTime st |}.

(** How an awaited request ends. *)
Inductive settled (A : Type) : Type :=
| Resolved (data : A)
| Rejected.
Arguments Resolved {A} data.
Arguments Rejected {A}.

(** [fetchScans(silent)] up to its [await getScans()]. *)
Definition fetchScans_request (silent : bool) : action :=
  (when (negb silent) (setLoading true) ;;
   when (negb silent) (setError None))%act.

(** [fetchScans(silent)] from the moment the request settles: the rest of
    the [try] block or the [catch] block, then the [finally] block. *)
Definition fetchScans_settle (silent : bool)
    (r : settled (list ScanResult.t)) : action :=
  (match r with
   | Resolved data => setScans data
   | Rejected => when (negb silent) (setError (Some "Failed to fetch scans"))
   end ;;
   when (negb silent) (setLoading false))%act.

(** A whole call, when nothing else updates the state while the request is
    in flight. *)
Definition fetchScans (silent : bool)
    (r : settled (list ScanResult.t)) : action :=
  (fetchScans_request silent ;; fetchScans_settle silent r)%act.

Section Render.

(** [new Date(s).getTime()]: the epoch milliseconds of a date string, [None]
    when the string is not a date (the time value is then [NaN]). *)
Variable Date_parse : string -> option Z.

(** [n.toLocaleString()], which depends on the browser's locale. *)
Variable toLocaleString : Z -> string.

Definition getTime (s : string) : JS.number :=
  match Date_parse s with
  | Some t => JS.Num t
  | None => JS.NaN
  end.

Definition isRunning (scan : ScanResult.t) : bool :=
  String.eqb (JS.toLowerCase (ScanResult.status scan)) "pending"
  || String.eqb (JS.toLowerCase (ScanResult.status scan)) "queued".

(** The variable [seconds] of [getDuration] after the clamp. *)
Definition elapsedSeconds (now : Z) (scan : ScanResult.t) : JS.number :=
  let start := getTime (ScanResult.created_at scan) in
  let end_ := JS.Num now in
  let end_ :=
    if JS.truthy (ScanResult.ended_at scan) then
      getTime (default "" (ScanResult.ended_at scan))
    else if negb (isRunning scan) then start
    else end_ in
  let seconds := JS.floor_div (JS.sub end_ start) 1000 in
  if JS.ltb seconds 0 then JS.Num 0 else seconds.

Definition pad (n : JS.number) : string :=
  JS.padStart (JS.toString n) 2 "0".

(** The rest of [getDuration]: [seconds] to text. *)
Definition formatSeconds (seconds : JS.number) : string :=
  let hrs := JS.floor_div seconds 3600 in
  let mins := JS.floor_div (JS.rem seconds 3600) 60 in
  let secs := JS.rem seconds 60 in
  pad hrs +:+ ":" +:+ pad mins +:+ ":" +:+ pad secs.

(** [getDuration(scan)], with [currentTime.getTime()] as [now]. *)
Definition getDuration (now : Z) (scan : ScanResult.t) : string :=
  formatSeconds (elapsedSeconds now scan).

(** The text of the token button of a job row. *)
Definition tokenCell (scan : ScanResult.t) : string :=
  if 0 <? ScanResult.tokens_used scan then toLocaleString (ScanResult.tokens_used scan)
  else if String.eqb (JS.toLowerCase (ScanResult.status scan)) "finished"
       then "~1,200"
       else "—".

End Render.

(** *** Token breakdown *)

Record estimate : Type := { input : Z; output : Z }.

(** The object literal [fallbacks].  A step that is no key of its own
    reaches at most a member of [Object.prototype], which has no [input] or
    [output] property, so the lookup ends in [0] as for a missing key. *)
Definition fallbacks : gmap string estimate :=
  <["Ecosystem Detection" := {| input := 150; output := 200 |}]>
  (<["Remediation" := {| input := 400; output := 600 |}]> ∅).

(** [x || 0] on an optional number: [undefined] and [0] give [0]. *)
Definition or_zero (x : option Z) : Z :=
  match x with
  | Some v => if v =? 0 then 0 else v
  | None => 0
  end.

Definition getInput (log : ScanLog.t) : Z :=
  if 0 <? ScanLog.tokens_input log then ScanLog.tokens_input log
  else or_zero (input <$> fallbacks !! ScanLog.step log).

Definition getOutput (log : ScanLog.t) : Z :=
  if 0 <? ScanLog.tokens_output log then ScanLog.tokens_output log
  else or_zero (output <$> fallbacks !! ScanLog.step log).

Definition getTotal (log : ScanLog.t) : Z :=
  JS.add (getInput log) (getOutput log).

(** [scanLogs.reduce((s, l) => s + f(l), 0)]: the cells of the total row. *)
Definition reduce_sum (f : ScanLog.t -> Z) (logs : list ScanLog.t) : Z :=
  fold_left (fun s l => JS.add s (f l)) logs 0.

Definition totalInput := reduce_sum getInput.
Definition totalOutput := reduce_sum getOutput.
Definition totalTokens := reduce_sum getTotal.

(** *** The other handlers *)

Definition setSelectedScanId (v : option Z) : action := fun st =>
  {| scans := scans st; loading := loading st; error := error st;
     selectedScanId := v; scanLogs := scanLogs st;
     logsLoading := logsLoading st; reportScanId := reportScanId st;
     currentTime := currentTime st |}.

Definition setScanLogs (v : list ScanLog.t) : action := fun st =>
  {| scans := scans st; loading := loading st; error := error st;
     selectedScanId := selectedScanId st; scanLogs := v;
     logsLoading := logsLoading st; reportScanId := reportScanId st;
     currentTime := currentTime st |}.

Definition setLogsLoading (v : bool) : action := fun st =>
  {| scans := scans st; loading := loading st; error := error st;
     selectedScanId := selectedScanId st; scanLogs := scanLogs st;
     logsLoading := v; reportScanId := reportScanId st;
     currentTime := currentTime st |}.

(** [openTokenModal(scanId)] up to its [await getScanLogs(scanId)]. *)
Definition openTokenModal_request (scanId : Z) : action :=
  (setSelectedScanId (Some scanId) ;; setLogsLoading true)%act.

(** [openTokenModal] from the moment the request settles. *)
Definition openTokenModal_settle (r : settled (list ScanLog.t)) : action :=
  (match r with
   | Resolved logs => setScanLogs logs
   | Rejected => setScanLogs []
   end ;;
   setLogsLoading false)%act.

(** [silentFetchTokenLogs(scanId)] from the moment its request settles; it
    does nothing before. *)
Definition silentFetchTokenLogs_settle (r : settled (list ScanLog.t)) : action :=
  match r with
  | Resolved logs => setScanLogs logs
  | Rejected => skip
  end.

Definition closeModal : action :=
  (setSelectedScanId None ;; setScanLogs [])%act.

(** [handleCancelScan(scanId)] from the moment [cancelScan(scanId)]
    settles, with the messages it passes to [alert].  On success it starts
    a silent refresh, whose request settles as [refresh]; [fetchScans]
    catches every failure itself, so the [catch] block runs only when the
    cancel request fails. *)
Definition handleCancelScan (cancel : settled unit)
    (refresh : settled (list ScanResult.t)) (st : State) : State * list string :=
  match cancel with
  | Resolved _ => (fetchScans true refresh st, [])
  | Rejected => (st, ["Failed to cancel scan"])
  end.

(** *** The controls of a job row *)

(** The spinner beside the status. *)
Definition showSpinner (scan : ScanResult.t) : bool :=
  String.eqb (JS.toLowerCase (ScanResult.status scan)) "pending".

(** The attribute [disabled] of the Report button. *)
Definition reportDisabled (scan : ScanResult.t) : bool :=
  String.eqb (JS.toLowerCase (ScanResult.status scan)) "queued".

(** Whether the Cancel button is rendered. *)
Definition showCancel (scan : ScanResult.t) : bool :=
  String.eqb (JS.toLowerCase (ScanResult.status scan)) "pending"
  || String.eqb (JS.toLowerCase (ScanResult.status scan)) "queued".

(** *** The token modal *)

Inductive token_modal : Type :=
| ModalHidden
| ModalLoading (scanId : Z)
| ModalEmpty (scanId : Z)
| ModalTable (scanId : Z) (logs : list ScanLog.t).

Definition tokenModal (st : State) : token_modal :=
  match selectedScanId st with
  | None => ModalHidden
  | Some scanId =>
      if logsLoading st then ModalLoading scanId
      else if (length (scanLogs st) =? 0)%nat then ModalEmpty scanId
      else ModalTable scanId (scanLogs st)
  end.

(** A figure cell of the table: [n > 0 ? `~${n.toLocaleString()}` : '—']. *)
Definition amountCell (toLocaleString : Z -> string) (n : Z) : string :=
  if 0 <? n then "~" +:+ toLocaleString n else "—".

(** The class of a row of the table. *)
Definition rowClass (log : ScanLog.t) : string :=
  if 0 <? getTotal log then "has-tokens" else "".

(** *** Background polling *)

(** The data of a request that succeeded. *)
Definition fetched {A : Type} (r : settled A) : option A :=
  match r with
  | Resolved data => Some data
  | Rejected => None
  end.

(** The silent refreshes of the interval timer, one per element of [rs],
    in the order in which their requests settle. *)
Definition poll (rs : list (settled (list ScanResult.t))) : action := fun st =>
  fold_left (fun st r => fetchScans true r st) rs st.

End Dashboard.

(** ** components/ReportModal.tsx *)

Module ReportModal.
Import Client.

Inductive code_view : Type := before | after.

Record State : Type := mkState {
  report : option ScanReport.t;
  loading : bool;
  activeTab : string;
  expandedFix : option Z;
  codeView : code_view;
}.

Definition initial : State :=
  {| report := None; loading := true; activeTab := "overview";
     expandedFix := None; codeView := after |}.

Definition setReport (v : option ScanReport.t) (st : State) : State :=
  {| report := v; loading := loading st; activeTab := activeTab st;
     expandedFix := expandedFix st; codeView := codeView st |}.

Definition setLoading (v : bool) (st : State) : State :=
  {| report := report st; loading := v; activeTab := activeTab st;
     expandedFix := expandedFix st; codeView := codeView st |}.

(** The effect on [scanId], from the moment [getScanReport(scanId)]
    settles: [.then(setReport)], [.catch(() => setReport(null))], then
    [.finally(() => setLoading(false))]. *)
Definition loadReport (r : Dashboard.settled ScanReport.t) (st : State) : State :=
  let st :=
    match r with
    | Dashboard.Resolved data => setReport (Some data) st
    | Dashboard.Rejected => setReport None st
    end in
  setLoading false st.

(** [const r = report?.report || {}] *)
Definition r (st : State) : Envelope.t :=
  default Envelope.empty (report st ≫= ScanReport.report).

(** [r.verification || []] *)
Definition verifications (st : State) : list Verification.t :=
  default [] (Envelope.verification (r st)).

(** [verifications.filter(v => v.verified).length] *)
Definition verifiedCount (st : State) : nat :=
  length (filter (fun v => Verification.verified v = true) (verifications st)).

(** The state class of the Verify step of the pipeline row. *)
Definition verifyMark (st : State) : string :=
  if (verifiedCount st =? length (verifications st))%nat
  then "completed" else "warning".

Definition verifyStepClass (st : State) : string :=
  "pipeline-step " +:+ verifyMark st.

(** What the modal shows below its header. *)
Inductive body : Type :=
| ReportLoading
| ReportEmptyState
| ReportTabs.

Definition renderBody (st : State) : body :=
  if loading st then ReportLoading
  else
    match report st with
    | None => ReportEmptyState
    | Some rep =>
        match ScanReport.report rep with
        | None => ReportEmptyState
        | Some e =>
            if (length (Envelope.keys e) =? 0)%nat then ReportEmptyState
            else ReportTabs
        end
    end.

(** *** parsedTests *)

Record test : Type := {
  name : string;
  status : string;
  details : option string;
}.

Definition bytes (l : list nat) : string :=
  string_of_list_ascii (map ascii_of_nat l).

(** The characters of the class [\s]: the white space and line terminators
    of ECMAScript, each as its UTF-8 encoding.  In order: U+0009 to U+000D,
    U+0020, U+00A0, U+1680, U+2000 to U+200A, U+2028, U+2029, U+202F,
    U+205F, U+3000, U+FEFF. *)
Definition white_space : list string :=
  map bytes
    [ [9]; [10]; [11]; [12]; [13]; [32]; [194; 160]; [225; 154; 128];
      [226; 128; 128]; [226; 128; 129]; [226; 128; 130]; [226; 128; 131];
      [226; 128; 132]; [226; 128; 133]; [226; 128; 134]; [226; 128; 135];
      [226; 128; 136]; [226; 128; 137]; [226; 128; 138];
      [226; 128; 168]; [226; 128; 169]; [226; 128; 175]; [226; 129; 159];
      [227; 128; 128]; [239; 187; 191] ]%nat.

(** [s] without its prefix [p]. *)
Fixpoint strip_prefix (p s : string) : option string :=
  match p with
  | EmptyString => Some s
  | String a p' =>
      match s with
      | String b s' => if Ascii.eqb a b then strip_prefix p' s' else None
      | EmptyString => None
      end
  end.

(** The first alternative of [alts] that is a prefix of [s], removed. *)
Fixpoint strip_any (alts : list string) (s : string) : option string :=
  match alts with
  | [] => None
  | p :: alts' =>
      match strip_prefix p s with
      | Some rest => Some rest
      | None => strip_any alts' s
      end
  end.

(** [\s]: one white space character off the front. *)
Definition skip_space (s : string) : option string := strip_any white_space s.

(** [\s*], greedy; a character is at least one byte, so [String.length s]
    rounds are enough for [s]. *)
Fixpoint skip_spaces_upto (rounds : nat) (s : string) : string :=
  match rounds with
  | O => s
  | S rounds' =>
      match skip_space s with
      | Some s' => skip_spaces_upto rounds' s'
      | None => s
      end
  end.

Definition skip_spaces (s : string) : string :=
  skip_spaces_upto (String.length s) s.

(** The class [\w]: [A-Za-z0-9_]. *)
Definition is_word (c : ascii) : bool :=
  let n := nat_of_ascii c in
  ((65 <=? n) && (n <=? 90) || (97 <=? n) && (n <=? 122)
   || (48 <=? n) && (n <=? 57) || (n =? 95))%nat.

(** [\w*], greedy: the longest prefix of word characters. *)
Fixpoint word (s : string) : string :=
  match s with
  | String c s' => if is_word c then String c (word s') else EmptyString
  | EmptyString => EmptyString
  end.

(** [\s+(\w+)] at the front of [s]: the second group.  No white space
    character is a word character, so giving white space back cannot turn a
    failure into a match. *)
Definition spaces_then_word (s : string) : option string :=
  match skip_space s with
  | None => None
  | Some s1 =>
      let w := word (skip_spaces s1) in
      if String.eqb w "" then None else Some w
  end.

(** One alternative [tag] of the first group with the rest of the pattern:
    [tag], a colon, then [\s+(\w+)]. *)
Definition tagged (tag line : string) : option string :=
  (strip_prefix tag line ≫= strip_prefix ":") ≫= spaces_then_word.

(** [line.match(/^(FAIL|ERROR):\s+(\w+)/)]: [failMatch[2]] when the line
    matches.  The alternatives of the first group are tried in order, each
    with the rest of the pattern. *)
Fixpoint match_tagged (tags : list string) (line : string) : option string :=
  match tags with
  | [] => None
  | tag :: tags' =>
      match tagged tag line with
      | Some w => Some w
      | None => match_tagged tags' line
      end
  end.

Definition failMatch (line : string) : option string :=
  match_tagged ["FAIL"; "ERROR"] line.

Definition LF : ascii := "010"%char.

Definition parsedTests (output : string) : list test :=
  let lines := JS.split LF output in
  let tests :=
    fold_left
      (fun (tests : list test) line =>
         match failMatch line with
         | Some w =>
             (tests ++ [{| name := w; status := "FAIL"; details := None |}])%list
         | None => tests
         end)
      lines [] in
  if (length tests =? 0)%nat && JS.includes output "OK" then
    (tests ++ [{| name := "All Tests"; status := "PASS";
                  details := Some "Full suite passed" |}])%list
  else tests.

(** *** Paths *)

(** [path.split(sep).pop()]: the last piece of the path. *)
Definition lastSegment (sep : ascii) (path : string) : option string :=
  last (JS.split sep path).

(** [path.split('.').pop()?.toLowerCase() || ''].  The lower-casing of the
    engine, which lowers the capitals of every script, is the parameter
    [toLowerCase]. *)
Definition getFileExt (toLowerCase : string -> string) (path : string) : string :=
  match lastSegment "." path with
  | Some seg =>
      let ext := toLowerCase seg in
      if String.eqb ext "" then "" else ext
  | None => ""
  end.

(** The [switch] of [getLangIcon] on [getFileExt(path)].  Its labels are
    ASCII and have neither a [k] nor an [i], so against them the engine's
    lower-casing answers as [JS.toLowerCase] does (see there), and the icon
    comes out as in JavaScript for every path. *)
Definition getLangIcon (path : string) : string :=
  let ext := getFileExt JS.toLowerCase path in
  if String.eqb ext "py" then "🐍"
  else if String.eqb ext "js" || String.eqb ext "ts"
          || String.eqb ext "jsx" || String.eqb ext "tsx" then "📜"
  else if String.eqb ext "java" then "☕"
  else if String.eqb ext "go" then "🔵"
  else if String.eqb ext "rb" then "💎"
  else "📄".

(** The file name shown on a card: [path.split('/').pop()]. *)
Definition fileName (path : string) : option string := lastSegment "/" path.

(** *** Code changes *)

(** [r.remediation || []] *)
Definition remediations (st : State) : list Remediation.t :=
  default [] (Envelope.remediation (r st)).

(** [verifications.find(v => v.path === fix.path)] *)
Definition findVerification (st : State) (fx : Remediation.t) : option Verification.t :=
  List.find (fun v => String.eqb (Verification.path v) (Remediation.path fx))
    (verifications st).

(** The class of the status badge of a fix card, when it has one. *)
Definition fixBadge (st : State) (fx : Remediation.t) : option string :=
  (fun v => if Verification.verified v then "pass" else "fail")
    <$> findVerification st fx.

(** *** Verification cards *)



(** *** Tabs *)

Definition setActiveTab (v : string) (st : State) : State :=
  {| report := report st; loading := loading st; activeTab := v;
     expandedFix := expandedFix st; codeView := codeView st |}.

Definition setExpandedFix (v : option Z) (st : State) : State :=
  {| report := report st; loading := loading st; activeTab := activeTab st;
     expandedFix := v; codeView := codeView st |}.

Definition setCodeView (v : code_view) (st : State) : State :=
  {| report := report st; loading := loading st; activeTab := activeTab st;
     expandedFix := expandedFix st; codeView := v |}.

(** The identifiers of the array [tabs], in order. *)
Definition tab_ids : list string :=
  ["overview"; "scanner"; "ecosystem"; "remediation"; "verification"].

(** The sections of the report body, each behind its own test
    [activeTab === id].  They are children of the tabbed view: none is
    rendered while the request is in flight or in the empty state. *)
Definition sections (st : State) : list string :=
  match renderBody st with
  | ReportTabs => List.filter (fun id => String.eqb (activeTab st) id) tab_ids
  | _ => []
  end.

(** The click on the header of the fix card [i]:
    [setExpandedFix(isExpanded ? null : i)]. *)
Definition toggleFix (i : Z) (st : State) : State :=
  let isExpanded :=
    match expandedFix st with
    | Some j => j =? i
    | None => false
    end in
  setExpandedFix (if isExpanded then None else Some i) st.

(** Whether the card of the fix at index [i] is on screen: the tabbed
    view with the code changes section, and a fix at that index. *)
Definition fixCardShown (i : Z) (st : State) : Prop :=
  renderBody st = ReportTabs /\ activeTab st = "remediation" /\
  0 <= i < Z.of_nat (length (remediations st)).

(** What a user and the network can do to the modal: the request settles;
    a click on a tab button, which the tabbed view alone has; a click on
    the header of a fix card that is on screen; a click on the code toggle
    of the expanded fix card. *)
Inductive step : State -> State -> Prop :=
| step_load (res : Dashboard.settled ScanReport.t) (st : State) :
    step st (loadReport res st)
| step_tab (id : string) (st : State) :
    renderBody st = ReportTabs -> In id tab_ids ->
    step st (setActiveTab id st)
| step_toggle (i : Z) (st : State) :
    fixCardShown i st -> step st (toggleFix i st)
| step_view (v : code_view) (i : Z) (st : State) :
    fixCardShown i st -> expandedFix st = Some i ->
    step st (setCodeView v st).

End ReportModal.

(** ** The description's own wording of the rules

    Written from the console's description, independently of the code, and
    compared with the code in the theorems below. *)

Module Spec.
Import Client.

(** Two strings that differ at most in the case of their ASCII letters. *)
Fixpoint same_ignoring_case (a b : string) : bool :=
  match a, b with
  | EmptyString, EmptyString => true
  | String x a', String y b' =>
      Ascii.eqb (JS.lower_char x) (JS.lower_char y) && same_ignoring_case a' b'
  | _, _ => false
  end.

(** The "running" set of statuses. *)
Definition running (status : string) : bool :=
  same_ignoring_case status "pending" || same_ignoring_case status "queued".

Definition finished (status : string) : bool :=
  same_ignoring_case status "finished".

(** The end time of a job whose [ended_at] is set. *)
Definition ended (Date_parse : string -> option Z) (scan : ScanResult.t) : option Z :=
  match ScanResult.ended_at scan with
  | Some e => if String.eqb e "" then None else Date_parse e
  | None => None
  end.

(** Elapsed milliseconds of the duration rule, clamped at zero. *)
Definition elapsed (created : Z) (ended : option Z) (running : bool) (now : Z) : Z :=
  Z.max 0
    match ended with
    | Some e => e - created
    | None => if running then now - created else 0
    end.

Definition digit (d : Z) : ascii := ascii_of_nat (48 + Z.to_nat d).

(** A field of the clock text: at least two decimal digits. *)
Definition two_digits (n : Z) : string :=
  if n <? 100 then String (digit (n / 10)) (String (digit (n mod 10)) "")
  else JS.Z_toString n.

(** Whole seconds as hours:minutes:seconds. *)
Definition HH_MM_SS (seconds : Z) : string :=
  two_digits (seconds / 3600) +:+ ":" +:+
  two_digits (seconds / 60 mod 60) +:+ ":" +:+
  two_digits (seconds mod 60).


(** No character of [s] is [c]. *)
Fixpoint free_of (c : ascii) (s : string) : bool :=
  match s with
  | EmptyString => true
  | String x s' => negb (Ascii.eqb x c) && free_of c s'
  end.

(** The value of a decimal field. *)
Definition field_value (s : string) : option Z :=
  Z.of_int <$> NilZero.int_of_string s.

(** Reading a clock text back: the seconds that [h:m:s] stands for. *)
Definition seconds_of_text (text : string) : option Z :=
  match JS.split ":"%char text with
  | [h; m; s] =>
      match field_value h, field_value m, field_value s with
      | Some h', Some m', Some s' => Some (h' * 3600 + m' * 60 + s')
      | _, _, _ => None
      end
  | _ => None
  end.

(** The fixed table of fallback estimates. *)
Definition fallback_input (step : string) : Z :=
  if decide (step = "Ecosystem Detection") then 150
  else if decide (step = "Remediation") then 400
  else 0.

Definition fallback_output (step : string) : Z :=
  if decide (step = "Ecosystem Detection") then 200
  else if decide (step = "Remediation") then 600
  else 0.

(** The sum of [f] over the phase logs of a job. *)
Fixpoint sum_over (f : ScanLog.t -> Z) (logs : list ScanLog.t) : Z :=
  match logs with
  | [] => 0
  | l :: logs' => f l + sum_over f logs'
  end.

(** The number of verification entries with [verified == true]. *)
Fixpoint verificationPassed (vs : list Verification.t) : nat :=
  match vs with
  | [] => 0%nat
  | v :: vs' =>
      ((if Verification.verified v then 1 else 0) + verificationPassed vs')%nat
  end.

Definition verificationTotal (vs : list Verification.t) : nat := length vs.

(** A report whose inner envelope has no key at all: no field with a
    value and no other key; an envelope that is [null] has none. *)
Definition no_keys (rep : ScanReport.t) : Prop :=
  forall e, ScanReport.report rep = Some e ->
    Envelope.scanner e = None /\ Envelope.ecosystem e = None /\
    Envelope.analysis e = None /\ Envelope.remediation e = None /\
    Envelope.verification e = None /\ Envelope.report e = None /\
    Envelope.error e = None /\ Envelope.other_keys e = [].

(** The verification list of a report payload; a payload without one (no
    report, no envelope, no [verification] key) has none. *)
Definition verification_list (payload : option ScanReport.t) : list Verification.t :=
  match payload with
  | Some rep =>
      match ScanReport.report rep with
      | Some e =>
          match Envelope.verification e with
          | Some vs => vs
          | None => []
          end
      | None => []
      end
  | None => []
  end.

(** [lines] joined by [sep]. *)
Fixpoint join (sep : ascii) (lines : list string) : string :=
  match lines with
  | [] => ""
  | [l] => l
  | l :: lines' => l +:+ String sep (join sep lines')
  end.

(** The entries of the verification log parser. *)
Definition failure (name : string) : ReportModal.test :=
  {| ReportModal.name := name; ReportModal.status := "FAIL";
     ReportModal.details := None |}.

Definition all_passed : ReportModal.test :=
  {| ReportModal.name := "All Tests"; ReportModal.status := "PASS";
     ReportModal.details := Some "Full suite passed" |}.

(** A run of white space characters. *)
Inductive white : string -> Prop :=
| white_nil : white ""
| white_cons (c ws : string) :
    In c ReportModal.white_space -> white ws -> white (c +:+ ws).

(** Every character of [w] is a word character. *)
Fixpoint word_chars (w : string) : bool :=
  match w with
  | EmptyString => true
  | String c w' => ReportModal.is_word c && word_chars w'
  end.

Definition starts_with_word_char (s : string) : bool :=
  match s with
  | String c _ => ReportModal.is_word c
  | EmptyString => false
  end.

(** A line that reports the failure of [w]: [FAIL:] or [ERROR:] at its
    start, then white space, then the identifier [w], which ends where the
    word characters end. *)
Definition fail_line (line w : string) : Prop :=
  exists tag ws rest,
    (tag = "FAIL" \/ tag = "ERROR") /\
    line = tag +:+ ":" +:+ ws +:+ w +:+ rest /\
    white ws /\ ws <> "" /\
    w <> "" /\ word_chars w = true /\
    starts_with_word_char rest = false.

(** A FAIL entry. *)
Definition is_failure (t : ReportModal.test) : bool :=
  String.eqb (ReportModal.status t) "FAIL".

End Spec.

(** ** Sample data for the closed instances *)

Module Samples.
Import Client.

Definition parse (s : string) : option Z :=
  if String.eqb s "2024-01-01T00:00:00Z" then Some 1704067200000 else None.

Definition pending_job : ScanResult.t :=
  {| ScanResult.id := 1; ScanResult.repo := "https://example.org/repo.git";
     ScanResult.status := "pending";
     ScanResult.created_at := "2024-01-01T00:00:00Z";
     ScanResult.ended_at := None; ScanResult.tokens_used := 0 |}.

(** A clock that knows two dates, one hour apart. *)
Definition parse2 (s : string) : option Z :=
  if String.eqb s "2024-01-01T00:00:00Z" then Some 1704067200000
  else if String.eqb s "2024-01-01T01:00:00Z" then Some 1704070800000
  else None.

Definition finished_job : ScanResult.t :=
  {| ScanResult.id := 2; ScanResult.repo := "https://example.org/repo.git";
     ScanResult.status := "finished";
     ScanResult.created_at := "2024-01-01T00:00:00Z";
     ScanResult.ended_at := Some "2024-01-01T01:00:00Z";
     ScanResult.tokens_used := 1234 |}.

(** A job that reached a final status without an end time. *)
Definition legacy_job : ScanResult.t :=
  {| ScanResult.id := 3; ScanResult.repo := "https://example.org/repo.git";
     ScanResult.status := "failed";
     ScanResult.created_at := "2024-01-01T00:00:00Z";
     ScanResult.ended_at := None; ScanResult.tokens_used := 0 |}.

Definition remediation_log : ScanLog.t :=
  {| ScanLog.step := "Remediation"; ScanLog.tokens_input := 0;
     ScanLog.tokens_output := 0; ScanLog.tokens_total := 0;
     ScanLog.model := "model-a"; ScanLog.message := "patched";
     ScanLog.timestamp := "2024-01-01T00:10:00Z" |}.

Definition scanner_log : ScanLog.t :=
  {| ScanLog.step := "Scanner"; ScanLog.tokens_input := 12;
     ScanLog.tokens_output := 0; ScanLog.tokens_total := 12;
     ScanLog.model := "model-a"; ScanLog.message := "scanned";
     ScanLog.timestamp := "2024-01-01T00:05:00Z" |}.


(** Logs with counts at the end of the range of exact integers: 2^53 and
    0, 1 and 1, 2^53 and 1. *)
Definition huge_log : ScanLog.t :=
  {| ScanLog.step := "Scanner"; ScanLog.tokens_input := 9007199254740992;
     ScanLog.tokens_output := 0; ScanLog.tokens_total := 9007199254740992;
     ScanLog.model := "model-a"; ScanLog.message := "scanned";
     ScanLog.timestamp := "2024-01-01T00:05:00Z" |}.

Definition unit_log : ScanLog.t :=
  {| ScanLog.step := "Analysis"; ScanLog.tokens_input := 1;
     ScanLog.tokens_output := 1; ScanLog.tokens_total := 2;
     ScanLog.model := "model-a"; ScanLog.message := "analysed";
     ScanLog.timestamp := "2024-01-01T00:06:00Z" |}.

Definition odd_log : ScanLog.t :=
  {| ScanLog.step := "Scanner"; ScanLog.tokens_input := 9007199254740992;
     ScanLog.tokens_output := 1; ScanLog.tokens_total := 9007199254740993;
     ScanLog.model := "model-a"; ScanLog.message := "scanned";
     ScanLog.timestamp := "2024-01-01T00:05:00Z" |}.

(** Report payloads: one whose envelope is [{}], one whose envelope is
    [{"ecosystem": null}], and one with a single fix and no verification
    yet. *)
Definition blank_report : ScanReport.t :=
  {| ScanReport.id := 1; ScanReport.repo := "https://example.org/repo.git";
     ScanReport.status := "pending";
     ScanReport.created_at := "2024-01-01T00:00:00Z";
     ScanReport.report := Some Envelope.empty |}.

Definition null_key_report : ScanReport.t :=
  {| ScanReport.id := 1; ScanReport.repo := "https://example.org/repo.git";
     ScanReport.status := "pending";
     ScanReport.created_at := "2024-01-01T00:00:00Z";
     ScanReport.report :=
       Some {| Envelope.scanner := None; Envelope.ecosystem := None;
               Envelope.analysis := None; Envelope.remediation := None;
               Envelope.verification := None; Envelope.report := None;
               Envelope.error := None;
               Envelope.other_keys := ["ecosystem"] |} |}.

Definition fix_only_report : ScanReport.t :=
  {| ScanReport.id := 2; ScanReport.repo := "https://example.org/repo.git";
     ScanReport.status := "finished";
     ScanReport.created_at := "2024-01-01T00:00:00Z";
     ScanReport.report :=
       Some {| Envelope.scanner := None; Envelope.ecosystem := None;
               Envelope.analysis := None;
               Envelope.remediation :=
                 Some [ {| Remediation.path := "a.py";
                           Remediation.original_code := "eval(x)";
                           Remediation.fix_code := "literal_eval(x)";
                           Remediation.test_code := "";
                           Remediation.type := "code" |} ];
               Envelope.verification := Some [];
               Envelope.report := None; Envelope.error := None;
               Envelope.other_keys := [] |} |}.

(** The modal after the report with one fix has arrived and the Findings
    tab was clicked. *)
Definition browsing : ReportModal.State :=
  ReportModal.setActiveTab "scanner"
    (ReportModal.loadReport (Dashboard.Resolved fix_only_report)
       ReportModal.initial).

End Samples.

(** * Properties *)

(** ** Strings *)

Module TextFacts.

Lemma same_ignoring_case_lower (a b : string) :
  Spec.same_ignoring_case a b = String.eqb (JS.toLowerCase a) (JS.toLowerCase b).
Proof.
  revert b. induction a as [|x a IH]; intros [|y b]; simpl; try reflexivity.
  now rewrite IH.
Qed.

Lemma append_cons (x : ascii) (a b : string) :
  String x a +:+ b = String x (a +:+ b).
Proof. reflexivity. Qed.

Lemma append_assoc (a b c : string) : (a +:+ b) +:+ c = a +:+ (b +:+ c).
Proof.
  induction a as [|x a IH]; [reflexivity|].
  now rewrite !append_cons, IH.
Qed.

Lemma length_append (a b : string) :
  String.length (a +:+ b) = (String.length a + String.length b)%nat.
Proof.
  induction a as [|x a IH]; [reflexivity|].
  rewrite append_cons. simpl. now rewrite IH.
Qed.

Lemma split_free (sep : ascii) (a : string) :
  Spec.free_of sep a = true -> JS.split sep a = [a].
Proof.
  induction a as [|x a IH]; simpl; [reflexivity|].
  intros H. apply andb_prop in H as [Hx Ha].
  apply negb_true_iff in Hx. rewrite Hx, (IH Ha). reflexivity.
Qed.

Lemma split_field (sep : ascii) (a rest : string) :
  Spec.free_of sep a = true ->
  JS.split sep (a +:+ String sep rest) = a :: JS.split sep rest.
Proof.
  induction a as [|x a IH]; simpl.
  - intros _. now rewrite Ascii.eqb_refl.
  - intros H. apply andb_prop in H as [Hx Ha].
    apply negb_true_iff in Hx. rewrite Hx, (IH Ha). reflexivity.
Qed.

Lemma split_nonempty (sep : ascii) (s : string) : JS.split sep s <> [].
Proof.
  induction s as [|c s IH]; simpl; [discriminate|].
  destruct (Ascii.eqb c sep); [discriminate|].
  destruct (JS.split sep s); [congruence | discriminate].
Qed.

(** The lines of a text are its pieces between the separators. *)
Lemma split_spec (sep : ascii) (s : string) :
  Spec.join sep (JS.split sep s) = s /\
  Forall (fun l => Spec.free_of sep l = true) (JS.split sep s).
Proof.
  induction s as [|c s [IHj IHf]]; simpl.
  - split; [reflexivity | repeat constructor].
  - pose proof (split_nonempty sep s) as Hne.
    destruct (Ascii.eqb_spec c sep) as [->|Hc].
    + split.
      * simpl. destruct (JS.split sep s) as [|l ls]; [congruence|].
        now rewrite IHj.
      * constructor; [reflexivity | assumption].
    + destruct (JS.split sep s) as [|l ls]; [congruence|].
      pose proof (Forall_inv IHf) as Hl. simpl in Hl. split.
      * simpl in *. destruct ls as [|l' ls]; [now rewrite IHj|].
        now rewrite append_cons, IHj.
      * constructor; [|exact (Forall_inv_tail IHf)]. simpl. rewrite Hl.
        now destruct (Ascii.eqb_spec c sep).
Qed.

Lemma prefix_spec (p s : string) :
  String.prefix p s = true <-> exists b, s = p +:+ b.
Proof.
  revert s. induction p as [|x p IH]; intros s.
  - split; [intros _; now exists s | now destruct s].
  - destruct s as [|y s]; simpl.
    + split; [discriminate | intros (b & Hb); discriminate Hb].
    + destruct (ascii_dec x y) as [->|Hxy].
      * rewrite IH. split; intros (b & Hb); exists b.
        -- now rewrite append_cons, Hb.
        -- rewrite append_cons in Hb. now injection Hb.
      * split; [discriminate|]. intros (b & Hb).
        rewrite append_cons in Hb. injection Hb as Hy _. congruence.
Qed.

(** [includes] finds exactly the substrings. *)
Lemma includes_spec (s sub : string) :
  JS.includes s sub = true <-> exists a b, s = a +:+ sub +:+ b.
Proof.
  induction s as [|c s IH].
  - change (JS.includes "" sub) with (String.prefix sub "" || false).
    rewrite orb_true_iff, prefix_spec. split.
    + intros [(b & Hb)|H]; [|discriminate]. now exists "", b.
    + intros (a & b & H). left. destruct a as [|x a]; [|discriminate H].
      now exists b.
  - change (JS.includes (String c s) sub)
      with (String.prefix sub (String c s) || JS.includes s sub).
    rewrite orb_true_iff, prefix_spec, IH. split.
    + intros [(b & Hb)|(a & b & Hs)].
      * now exists "", b.
      * exists (String c a), b. now rewrite append_cons, Hs.
    + intros (a & b & H). destruct a as [|x a].
      * left. now exists b.
      * right. rewrite append_cons in H. injection H as _ Hs. now exists a, b.
Qed.

End TextFacts.

(** ** Job list poller *)

Module PollerFacts.
Import Client Dashboard.

Lemma setScans_frame (v : list ScanResult.t) (st : State) :
  loading (setScans v st) = loading st /\
  error (setScans v st) = error st /\
  selectedScanId (setScans v st) = selectedScanId st /\
  scanLogs (setScans v st) = scanLogs st /\
  logsLoading (setScans v st) = logsLoading st /\
  reportScanId (setScans v st) = reportScanId st /\
  currentTime (setScans v st) = currentTime st.
Proof. repeat split. Qed.

(** C8. A silent refresh leaves the state as it is before the request and
    when the request fails; when the request succeeds it replaces the job
    table by the fetched list and nothing else.  In particular neither the
    loading flag nor the error flag changes, whatever the outcome. *)
Theorem silent_refresh_frame (r : settled (list ScanResult.t)) (st : State) :
  fetchScans_request true st = st /\
  loading (fetchScans_settle true r st) = loading st /\
  error (fetchScans_settle true r st) = error st /\
  fetchScans_settle true r st =
    (match r with
     | Resolved data => setScans data st
     | Rejected => st
     end) /\
  scans (fetchScans_settle true Rejected st) = scans st /\
  fetchScans true r st = fetchScans_settle true r st.
Proof.
  assert (Hset : fetchScans_settle true r st =
                 match r with Resolved data => setScans data st | Rejected => st end)
    by (destruct r; reflexivity).
  repeat split; try reflexivity; try assumption.
  - rewrite Hset. destruct r; reflexivity.
  - rewrite Hset. destruct r; reflexivity.
Qed.

(** A refresh that is not silent does touch both flags: it raises the
    loading flag and clears the error before the request, and ends with the
    loading flag down and the error set exactly on failure. *)
Lemma loud_refresh_flags (r : settled (list ScanResult.t)) (st : State) :
  loading (fetchScans_request false st) = true /\
  error (fetchScans_request false st) = None /\
  loading (fetchScans false r st) = false /\
  error (fetchScans false r st) =
    (match r with
     | Resolved _ => None
     | Rejected => Some "Failed to fetch scans"
     end).
Proof. destruct r; repeat split. Qed.

End PollerFacts.

(** ** Sums of counts *)

Module NumberFacts.

Lemma round64_mag_exact (a : Z) :
  0 <= a <= JS.exact_limit -> JS.round64_mag a = a.
Proof.
  intros Ha. unfold JS.round64_mag.
  destruct (Z.ltb_spec a JS.exact_limit) as [|Hge]; [reflexivity|].
  assert (a = JS.exact_limit) as -> by lia. reflexivity.
Qed.

Lemma round64_mag_pos (a : Z) : 0 < a -> 0 < JS.round64_mag a.
Proof.
  intros Ha. unfold JS.round64_mag.
  destruct (Z.ltb_spec a JS.exact_limit) as [|Hge]; [exact Ha|].
  assert (Hlog : 53 <= Z.log2 a).
  { change 53 with (Z.log2 JS.exact_limit). now apply Z.log2_le_mono. }
  set (e := Z.log2 a - 52).
  assert (He : 0 < 2 ^ e) by (apply Z.pow_pos_nonneg; lia).
  assert (Hq : 0 < a / 2 ^ e).
  { apply Z.div_str_pos. split; [exact He|].
    apply Z.le_trans with (2 ^ Z.log2 a).
    - apply Z.pow_le_mono_r; lia.
    - now apply Z.log2_spec. }
  cbv zeta.
  destruct (a mod 2 ^ e <? 2 ^ (e - 1)); [nia|].
  destruct (2 ^ (e - 1) <? a mod 2 ^ e); [nia|].
  destruct (Z.even (a / 2 ^ e)); nia.
Qed.

Lemma round64_exact (z : Z) : 0 <= z <= JS.exact_limit -> JS.round64 z = z.
Proof.
  intros Hz. unfold JS.round64.
  rewrite Z.abs_eq by lia. rewrite round64_mag_exact by exact Hz.
  destruct z; simpl; lia.
Qed.

Lemma round64_pos (z : Z) : 0 < z -> 0 < JS.round64 z.
Proof.
  intros Hz. unfold JS.round64.
  rewrite Z.abs_eq by lia. rewrite Z.sgn_pos by exact Hz.
  pose proof (round64_mag_pos z Hz). lia.
Qed.

Lemma round64_nonneg (z : Z) : 0 <= z -> 0 <= JS.round64 z.
Proof.
  intros Hz. destruct (Z.eq_dec z 0) as [->|]; [reflexivity|].
  pose proof (round64_pos z). lia.
Qed.

(** A sum of two counts that stays within 2^53 is exact. *)
Lemma add_exact (a b : Z) :
  0 <= a -> 0 <= b -> a + b <= JS.exact_limit -> JS.add a b = a + b.
Proof. intros. unfold JS.add. apply round64_exact. lia. Qed.

Lemma add_nonneg (a b : Z) : 0 <= a -> 0 <= b -> 0 <= JS.add a b.
Proof. intros. unfold JS.add. apply round64_nonneg. lia. Qed.

(** Rounding never turns a positive sum into zero. *)
Lemma add_pos_iff (a b : Z) :
  0 <= a -> 0 <= b -> (0 < JS.add a b <-> 0 < a + b).
Proof.
  intros Ha Hb. unfold JS.add. split.
  - intros H. destruct (Z.eq_dec (a + b) 0) as [E|]; [|lia].
    rewrite E in H. vm_compute in H. discriminate.
  - apply round64_pos.
Qed.

End NumberFacts.

(** ** Token ledger *)

Module LedgerFacts.
Import Client Dashboard.
Import TextFacts NumberFacts.

Lemma fallbacks_lookup (step : string) :
  fallbacks !! step =
    if decide (step = "Ecosystem Detection") then Some {| input := 150; output := 200 |}
    else if decide (step = "Remediation") then Some {| input := 400; output := 600 |}
    else None.
Proof.
  unfold fallbacks.
  destruct (decide (step = "Ecosystem Detection")) as [->|Hne1].
  - apply lookup_insert_eq.
  - rewrite lookup_insert_ne by congruence.
    destruct (decide (step = "Remediation")) as [->|Hne2].
    + apply lookup_insert_eq.
    + rewrite lookup_insert_ne by congruence. apply lookup_empty.
Qed.

Lemma fallback_input_lookup (step : string) :
  or_zero (input <$> fallbacks !! step) = Spec.fallback_input step.
Proof.
  rewrite fallbacks_lookup. unfold Spec.fallback_input.
  repeat case_decide; reflexivity.
Qed.

Lemma fallback_output_lookup (step : string) :
  or_zero (output <$> fallbacks !! step) = Spec.fallback_output step.
Proof.
  rewrite fallbacks_lookup. unfold Spec.fallback_output.
  repeat case_decide; reflexivity.
Qed.

(** C2. The effective input of a phase log is its [tokens_input] when that
    is positive and otherwise the table's input estimate for its step (150
    for "Ecosystem Detection", 400 for "Remediation", 0 for any other
    step); the effective output likewise, with 200, 600 and 0. *)
Theorem effective_tokens_rule (log : ScanLog.t) :
  (0 < ScanLog.tokens_input log -> getInput log = ScanLog.tokens_input log) /\
  (ScanLog.tokens_input log <= 0 ->
     getInput log = Spec.fallback_input (ScanLog.step log)) /\
  (0 < ScanLog.tokens_output log -> getOutput log = ScanLog.tokens_output log) /\
  (ScanLog.tokens_output log <= 0 ->
     getOutput log = Spec.fallback_output (ScanLog.step log)) /\
  (Spec.fallback_input "Ecosystem Detection" = 150 /\
   Spec.fallback_output "Ecosystem Detection" = 200 /\
   Spec.fallback_input "Remediation" = 400 /\
   Spec.fallback_output "Remediation" = 600) /\
  (ScanLog.step log <> "Ecosystem Detection" ->
   ScanLog.step log <> "Remediation" ->
   Spec.fallback_input (ScanLog.step log) = 0 /\
   Spec.fallback_output (ScanLog.step log) = 0).
Proof.
  unfold getInput, getOutput.
  rewrite fallback_input_lookup, fallback_output_lookup.
  repeat split.
  - intros H. apply Z.ltb_lt in H. now rewrite H.
  - intros H. apply Z.ltb_ge in H. now rewrite H.
  - intros H. apply Z.ltb_lt in H. now rewrite H.
  - intros H. apply Z.ltb_ge in H. now rewrite H.
  - unfold Spec.fallback_input. now repeat case_decide.
  - unfold Spec.fallback_output. now repeat case_decide.
Qed.

Lemma fallback_input_nonneg (step : string) : 0 <= Spec.fallback_input step.
Proof. unfold Spec.fallback_input. repeat case_decide; lia. Qed.

Lemma fallback_output_nonneg (step : string) : 0 <= Spec.fallback_output step.
Proof. unfold Spec.fallback_output. repeat case_decide; lia. Qed.

Lemma getInput_nonneg (log : ScanLog.t) : 0 <= getInput log.
Proof.
  unfold getInput. rewrite fallback_input_lookup.
  destruct (Z.ltb_spec 0 (ScanLog.tokens_input log));
    [lia | apply fallback_input_nonneg].
Qed.

Lemma getOutput_nonneg (log : ScanLog.t) : 0 <= getOutput log.
Proof.
  unfold getOutput. rewrite fallback_output_lookup.
  destruct (Z.ltb_spec 0 (ScanLog.tokens_output log));
    [lia | apply fallback_output_nonneg].
Qed.

Lemma getTotal_nonneg (log : ScanLog.t) : 0 <= getTotal log.
Proof.
  unfold getTotal. apply add_nonneg; [apply getInput_nonneg | apply getOutput_nonneg].
Qed.

Lemma getTotal_exact (log : ScanLog.t) :
  getInput log + getOutput log <= JS.exact_limit ->
  getTotal log = getInput log + getOutput log.
Proof.
  intros H. unfold getTotal.
  apply add_exact; [apply getInput_nonneg | apply getOutput_nonneg | exact H].
Qed.

Lemma sum_over_nonneg (f : ScanLog.t -> Z) (logs : list ScanLog.t) :
  (forall l, 0 <= f l) -> 0 <= Spec.sum_over f logs.
Proof.
  intros Hf. induction logs as [|l logs IH]; simpl; [lia|].
  specialize (Hf l). lia.
Qed.

Lemma sum_over_member (f : ScanLog.t -> Z) (log : ScanLog.t)
    (logs : list ScanLog.t) :
  (forall l, 0 <= f l) -> In log logs -> f log <= Spec.sum_over f logs.
Proof.
  intros Hf. induction logs as [|l logs IH]; simpl; [intros []|].
  pose proof (sum_over_nonneg f logs Hf). pose proof (Hf l).
  intros [->|Hin]; [lia|]. specialize (IH Hin). lia.
Qed.

(** The reduce of the total row is the exact sum as long as that sum stays
    within 2^53. *)
Lemma reduce_sum_from (f : ScanLog.t -> Z) (logs : list ScanLog.t) (acc : Z) :
  (forall l, 0 <= f l) -> 0 <= acc ->
  acc + Spec.sum_over f logs <= JS.exact_limit ->
  fold_left (fun s l => JS.add s (f l)) logs acc = acc + Spec.sum_over f logs.
Proof.
  intros Hf. revert acc. induction logs as [|l logs IH]; intros acc Hacc Hb; simpl.
  - lia.
  - simpl in Hb. pose proof (Hf l). pose proof (sum_over_nonneg f logs Hf).
    rewrite add_exact by lia. rewrite IH by lia. lia.
Qed.

Lemma reduce_sum_sum_over (f : ScanLog.t -> Z) (logs : list ScanLog.t) :
  (forall l, 0 <= f l) -> Spec.sum_over f logs <= JS.exact_limit ->
  reduce_sum f logs = Spec.sum_over f logs.
Proof.
  intros Hf Hb. unfold reduce_sum. rewrite reduce_sum_from by (auto; lia). lia.
Qed.

Lemma reduce_sum_nonneg (f : ScanLog.t -> Z) (logs : list ScanLog.t) :
  (forall l, 0 <= f l) -> 0 <= reduce_sum f logs.
Proof.
  intros Hf. unfold reduce_sum.
  assert (H : forall acc, 0 <= acc ->
            0 <= fold_left (fun s l => JS.add s (f l)) logs acc).
  { induction logs as [|l logs IH]; intros acc Hacc; simpl; [exact Hacc|].
    apply IH. now apply add_nonneg. }
  now apply H.
Qed.

Lemma sum_over_plus (f g : ScanLog.t -> Z) (logs : list ScanLog.t) :
  Spec.sum_over (fun l => f l + g l) logs =
  Spec.sum_over f logs + Spec.sum_over g logs.
Proof. induction logs as [|l logs IH]; simpl; lia. Qed.

Lemma sum_over_total (logs : list ScanLog.t) :
  Spec.sum_over getInput logs + Spec.sum_over getOutput logs <= JS.exact_limit ->
  Spec.sum_over getTotal logs =
  Spec.sum_over getInput logs + Spec.sum_over getOutput logs.
Proof.
  induction logs as [|l logs IH]; simpl; [reflexivity|]. intros Hb.
  pose proof (getInput_nonneg l). pose proof (getOutput_nonneg l).
  pose proof (sum_over_nonneg getInput logs getInput_nonneg).
  pose proof (sum_over_nonneg getOutput logs getOutput_nonneg).
  rewrite getTotal_exact by lia. rewrite IH by lia. lia.
Qed.

(** The total row past 2^53: with the counts 2^53 and 0 in one log and 1
    and 1 in another, the input cell is 2^53, the output cell is 1 and the
    total cell is 2^53 + 2, which is their sum neither as integers nor as
    binary64 numbers; and the total of a log with the counts 2^53 and 1 is
    2^53. *)
Lemma total_row_rounds :
  totalInput [Samples.huge_log; Samples.unit_log] = 9007199254740992 /\
  totalOutput [Samples.huge_log; Samples.unit_log] = 1 /\
  totalTokens [Samples.huge_log; Samples.unit_log] = 9007199254740994 /\
  totalTokens [Samples.huge_log; Samples.unit_log] <>
    totalInput [Samples.huge_log; Samples.unit_log] +
    totalOutput [Samples.huge_log; Samples.unit_log] /\
  totalTokens [Samples.huge_log; Samples.unit_log] <>
    JS.add (totalInput [Samples.huge_log; Samples.unit_log])
           (totalOutput [Samples.huge_log; Samples.unit_log]) /\
  getTotal Samples.odd_log <>
    getInput Samples.odd_log + getOutput Samples.odd_log.
Proof.
  repeat split; try (vm_compute; reflexivity);
    intros H; vm_compute in H; discriminate H.
Qed.

(** C5, as amended. The effective total of a phase log is the binary64
    sum of its effective input and its effective output, which is their
    sum when that is at most 2^53; and over a list of phase logs whose
    effective inputs and outputs add up to at most 2^53, the total cell of
    the total row is the sum of the effective totals, which is the sum of
    the effective inputs plus the sum of the effective outputs. *)
Theorem total_is_input_plus_output (log : ScanLog.t) (logs : list ScanLog.t)
    (Hbound : Spec.sum_over getInput logs + Spec.sum_over getOutput logs
              <= JS.exact_limit) :
  getTotal log = JS.add (getInput log) (getOutput log) /\
  (getInput log + getOutput log <= JS.exact_limit ->
     getTotal log = getInput log + getOutput log) /\
  (forall l, In l logs -> getTotal l = getInput l + getOutput l) /\
  totalTokens logs = Spec.sum_over getTotal logs /\
  Spec.sum_over getTotal logs =
    Spec.sum_over getInput logs + Spec.sum_over getOutput logs /\
  totalTokens logs = totalInput logs + totalOutput logs.
Proof.
  pose proof (sum_over_nonneg getInput logs getInput_nonneg) as Hi.
  pose proof (sum_over_nonneg getOutput logs getOutput_nonneg) as Ho.
  pose proof (sum_over_total logs Hbound) as Hsum.
  unfold totalTokens, totalInput, totalOutput.
  rewrite !reduce_sum_sum_over
    by (try apply getInput_nonneg; try apply getOutput_nonneg;
        try apply getTotal_nonneg; lia).
  split; [reflexivity|]. split; [apply getTotal_exact|].
  split; [|repeat split; assumption].
  intros l Hin. apply getTotal_exact.
  pose proof (sum_over_member getInput l logs getInput_nonneg Hin).
  pose proof (sum_over_member getOutput l logs getOutput_nonneg Hin).
  lia.
Qed.

Lemma total_is_input_plus_output_witness :
  totalTokens [Samples.remediation_log; Samples.scanner_log] =
  totalInput [Samples.remediation_log; Samples.scanner_log] +
  totalOutput [Samples.remediation_log; Samples.scanner_log].
Proof.
  apply (total_is_input_plus_output Samples.remediation_log
           [Samples.remediation_log; Samples.scanner_log]).
  vm_compute. discriminate.
Defined.

(** C9. The token figure of a job row is the job's [tokens_used] (as the
    locale prints it) when that is positive; otherwise the constant
    placeholder [~1,200] for a job whose status is "finished" in any
    letter case, and the dash for every other job. *)
Theorem token_cell_rule (toLocaleString : Z -> string) (scan : ScanResult.t) :
  (0 < ScanResult.tokens_used scan ->
     tokenCell toLocaleString scan = toLocaleString (ScanResult.tokens_used scan)) /\
  (ScanResult.tokens_used scan <= 0 ->
     Spec.finished (ScanResult.status scan) = true ->
     tokenCell toLocaleString scan = "~1,200") /\
  (ScanResult.tokens_used scan <= 0 ->
     Spec.finished (ScanResult.status scan) = false ->
     tokenCell toLocaleString scan = "—").
Proof.
  unfold tokenCell, Spec.finished.
  rewrite same_ignoring_case_lower.
  change (JS.toLowerCase "finished") with "finished".
  repeat split.
  - intros H. apply Z.ltb_lt in H. now rewrite H.
  - intros H Hf. apply Z.ltb_ge in H. now rewrite H, Hf.
  - intros H Hf. apply Z.ltb_ge in H. now rewrite H, Hf.
Qed.

End LedgerFacts.

(** ** Duration calculator *)

Module DurationFacts.
Import Client Dashboard.
Import TextFacts.

Lemma lt_100_cases (P : Z -> Prop) :
  (forall k : nat, (k < 100)%nat -> P (Z.of_nat k)) ->
  forall n, 0 <= n < 100 -> P n.
Proof.
  intros H n Hn. rewrite <- (Z2Nat.id n) by lia. apply H. lia.
Qed.

Lemma below_100 (f : nat -> bool) :
  forallb f (seq 0 100) = true -> forall k, (k < 100)%nat -> f k = true.
Proof.
  intros H k Hk. rewrite forallb_forall in H. apply H.
  apply in_seq. lia.
Qed.

Lemma pad_small (n : Z) :
  0 <= n < 100 -> pad (JS.Num n) = Spec.two_digits n.
Proof.
  revert n. apply lt_100_cases. intros k Hk.
  apply String.eqb_eq.
  revert k Hk.
  apply (below_100 (fun k => String.eqb (pad (JS.Num (Z.of_nat k)))
                                         (Spec.two_digits (Z.of_nat k)))).
  vm_compute. reflexivity.
Qed.

Lemma to_int_pos (n : Z) :
  0 < n -> exists d, Z.to_int n = Decimal.Pos d /\ d <> Decimal.Nil.
Proof.
  destruct n as [|p|p]; try lia. intros _.
  exists (Pos.to_uint p). split; [reflexivity|].
  apply DecimalPos.Unsigned.to_uint_nonnil.
Qed.

Lemma Z_toString_two (n : Z) :
  10 <= n -> (2 <= String.length (JS.Z_toString n))%nat.
Proof.
  intros Hn. unfold JS.Z_toString.
  destruct (to_int_pos n) as (d & Hd & Hnil); [lia|].
  pose proof (DecimalZ.of_to n) as Hback. rewrite Hd in *.
  destruct d as [|d|d|d|d|d|d|d|d|d|d]; try congruence;
    (destruct d as [|d|d|d|d|d|d|d|d|d|d];
     [ vm_compute in Hback; lia | simpl; lia .. ]).
Qed.

Lemma pad_large (n : Z) :
  10 <= n -> pad (JS.Num n) = JS.Z_toString n.
Proof.
  intros Hn. unfold pad, JS.padStart. simpl JS.toString.
  pose proof (Z_toString_two n Hn) as Hlen.
  replace (2 - String.length (JS.Z_toString n))%nat with 0%nat by lia.
  reflexivity.
Qed.

Lemma pad_two_digits (n : Z) :
  0 <= n -> pad (JS.Num n) = Spec.two_digits n.
Proof.
  intros Hn. destruct (Z_lt_le_dec n 100) as [Hlt|Hge].
  - apply pad_small. lia.
  - rewrite pad_large by lia. unfold Spec.two_digits.
    destruct (Z.ltb_spec n 100); [lia | reflexivity].
Qed.

Lemma clock_fields (s : Z) :
  0 <= s ->
  Z.rem s 3600 / 60 = s / 60 mod 60 /\ Z.rem s 60 = s mod 60 /\
  0 <= s / 3600 /\ 0 <= s / 60 mod 60 < 60 /\ 0 <= s mod 60 < 60 /\
  s / 3600 * 3600 + s / 60 mod 60 * 60 + s mod 60 = s.
Proof.
  intros Hs.
  rewrite !Z.rem_mod_nonneg by lia.
  Z.to_euclidean_division_equations. lia.
Qed.

Lemma formatSeconds_HH_MM_SS (s : Z) :
  0 <= s -> formatSeconds (JS.Num s) = Spec.HH_MM_SS s.
Proof.
  intros Hs. destruct (clock_fields s Hs) as (Hm & Hr & Hh & Hmin & Hsec & _).
  unfold formatSeconds, Spec.HH_MM_SS. simpl JS.floor_div. simpl JS.rem.
  rewrite Hm, Hr.
  rewrite !pad_two_digits by lia. reflexivity.
Qed.

Lemma isRunning_running (scan : ScanResult.t) :
  isRunning scan = Spec.running (ScanResult.status scan).
Proof.
  unfold isRunning, Spec.running.
  now rewrite !same_ignoring_case_lower.
Qed.

Lemma clamp_then_floor (d : Z) :
  (if d / 1000 <? 0 then JS.Num 0 else JS.Num (d / 1000)) =
  JS.Num (Z.max 0 d / 1000).
Proof.
  destruct (Z.ltb_spec (d / 1000) 0); f_equal;
    Z.to_euclidean_division_equations; lia.
Qed.

(** The [seconds] of [getDuration] when the dates of the job are dates: the
    clamped elapsed time of the rule, in whole seconds. *)
Lemma elapsedSeconds_rule (Date_parse : string -> option Z) (now : Z)
    (scan : ScanResult.t) (created : Z) :
  Date_parse (ScanResult.created_at scan) = Some created ->
  (forall e, ScanResult.ended_at scan = Some e -> e <> "" ->
             is_Some (Date_parse e)) ->
  elapsedSeconds Date_parse now scan =
    JS.Num (Spec.elapsed created (Spec.ended Date_parse scan)
              (Spec.running (ScanResult.status scan)) now / 1000)
  /\ 0 <= Spec.elapsed created (Spec.ended Date_parse scan)
            (Spec.running (ScanResult.status scan)) now / 1000.
Proof.
  intros Hc He. split.
  2:{ apply Z.div_pos; [apply Z.le_max_l | lia]. }
  unfold elapsedSeconds, Spec.elapsed, Spec.ended, getTime, JS.truthy.
  rewrite Hc, isRunning_running.
  destruct (ScanResult.ended_at scan) as [e|] eqn:Hended; simpl.
  - destruct (String.eqb_spec e "") as [->|Hne]; simpl.
    + destruct (Spec.running _); simpl.
      * apply clamp_then_floor.
      * rewrite Z.sub_diag. reflexivity.
    + destruct (He e eq_refl Hne) as [t Ht]. rewrite Ht. simpl.
      apply clamp_then_floor.
  - destruct (Spec.running _); simpl.
    + apply clamp_then_floor.
    + rewrite Z.sub_diag. reflexivity.
Qed.



(** *** Reading the clock text back *)

Lemma digits_free_of_colon (d : Decimal.uint) :
  Spec.free_of ":" (NilEmpty.string_of_uint d) = true.
Proof. induction d; simpl; auto. Qed.

Lemma Z_toString_free_of_colon (n : Z) :
  0 < n -> Spec.free_of ":" (JS.Z_toString n) = true.
Proof.
  intros Hn. unfold JS.Z_toString.
  destruct (to_int_pos n Hn) as (d & -> & Hnil). simpl.
  destruct d; try congruence; apply digits_free_of_colon.
Qed.

Lemma field_value_Z_toString (n : Z) :
  0 < n -> Spec.field_value (JS.Z_toString n) = Some n.
Proof.
  intros Hn. unfold Spec.field_value, JS.Z_toString.
  destruct (to_int_pos n Hn) as (d & Hd & Hnil).
  rewrite NilZero.isi.
  - simpl. now rewrite DecimalZ.of_to.
  - rewrite Hd. congruence.
  - rewrite Hd. discriminate.
Qed.

Lemma two_digits_small (n : Z) :
  0 <= n < 100 ->
  Spec.free_of ":" (Spec.two_digits n) = true /\
  Spec.field_value (Spec.two_digits n) = Some n.
Proof.
  revert n. apply lt_100_cases. intros k Hk.
  assert (H : Spec.free_of ":" (Spec.two_digits (Z.of_nat k))
              && bool_decide (Spec.field_value (Spec.two_digits (Z.of_nat k))
                              = Some (Z.of_nat k)) = true).
  { revert k Hk.
    apply (below_100 (fun k =>
      Spec.free_of ":" (Spec.two_digits (Z.of_nat k))
      && bool_decide (Spec.field_value (Spec.two_digits (Z.of_nat k))
                      = Some (Z.of_nat k)))).
    vm_compute. reflexivity. }
  apply andb_prop in H as [H1 H2]. apply bool_decide_eq_true in H2.
  split; assumption.
Qed.

Lemma two_digits_field (n : Z) :
  0 <= n ->
  Spec.free_of ":" (Spec.two_digits n) = true /\
  Spec.field_value (Spec.two_digits n) = Some n.
Proof.
  intros Hn. destruct (Z_lt_le_dec n 100) as [Hlt|Hge].
  - apply two_digits_small. lia.
  - unfold Spec.two_digits. destruct (Z.ltb_spec n 100); [lia|].
    split; [apply Z_toString_free_of_colon | apply field_value_Z_toString]; lia.
Qed.

(** The clock text of a number of seconds reads back as that number. *)
Lemma seconds_of_HH_MM_SS (s : Z) :
  0 <= s -> Spec.seconds_of_text (Spec.HH_MM_SS s) = Some s.
Proof.
  intros Hs. destruct (clock_fields s Hs) as (_ & _ & Hh & Hmin & Hsec & Hsum).
  destruct (two_digits_field (s / 3600)) as [Fh Vh]; [lia|].
  destruct (two_digits_field (s / 60 mod 60)) as [Fm Vm]; [lia|].
  destruct (two_digits_field (s mod 60)) as [Fs Vs]; [lia|].
  unfold Spec.seconds_of_text, Spec.HH_MM_SS.
  change (?a +:+ ":" +:+ ?b) with (a +:+ String ":" b).
  rewrite (split_field _ _ _ Fh).
  change (?a +:+ ":" +:+ ?b) with (a +:+ String ":" b).
  rewrite (split_field _ _ _ Fm), (split_free _ _ Fs).
  rewrite Vh, Vm, Vs. now rewrite Hsum.
Qed.

Lemma falsy_not_set (scan : ScanResult.t) (Date_parse : string -> option Z) :
  JS.truthy (ScanResult.ended_at scan) = false ->
  Spec.ended Date_parse scan = None /\
  forall e, ScanResult.ended_at scan = Some e -> e <> "" ->
            is_Some (Date_parse e).
Proof.
  unfold JS.truthy, Spec.ended.
  destruct (ScanResult.ended_at scan) as [e|]; [|now split].
  destruct (String.eqb_spec e "") as [->|Hne]; [|discriminate].
  intros _. split; [reflexivity|]. intros e [= <-] Hne. now destruct Hne.
Qed.

(** C6. For a job whose status is "pending" or "queued" in any letter case
    and whose [ended_at] is not set, the seconds that [getDuration]
    computes, which are also the seconds its text reads as, are never
    negative and do not decrease when the clock advances. *)
Theorem running_duration_monotone (Date_parse : string -> option Z)
    (now1 now2 : Z) (scan : ScanResult.t) (created : Z)
    (Hrunning : Spec.running (ScanResult.status scan) = true)
    (Hnot_ended : JS.truthy (ScanResult.ended_at scan) = false)
    (Hcreated : Date_parse (ScanResult.created_at scan) = Some created)
    (Hclock : now1 <= now2) :
  exists s1 s2,
    elapsedSeconds Date_parse now1 scan = JS.Num s1 /\
    elapsedSeconds Date_parse now2 scan = JS.Num s2 /\
    Spec.seconds_of_text (getDuration Date_parse now1 scan) = Some s1 /\
    Spec.seconds_of_text (getDuration Date_parse now2 scan) = Some s2 /\
    0 <= s1 /\ s1 <= s2.
Proof.
  destruct (falsy_not_set scan Date_parse Hnot_ended) as [Hnone Hended].
  destruct (elapsedSeconds_rule Date_parse now1 scan created Hcreated Hended)
    as [E1 P1].
  destruct (elapsedSeconds_rule Date_parse now2 scan created Hcreated Hended)
    as [E2 P2].
  rewrite Hnone, Hrunning in *.
  unfold Spec.elapsed in *.
  exists (Z.max 0 (now1 - created) / 1000), (Z.max 0 (now2 - created) / 1000).
  unfold getDuration. rewrite E1, E2.
  rewrite !formatSeconds_HH_MM_SS, !seconds_of_HH_MM_SS by assumption.
  repeat split; try assumption.
  apply Z.div_le_mono; lia.
Qed.

Lemma running_duration_monotone_witness :
  exists s1 s2,
    elapsedSeconds Samples.parse 1704067201000 Samples.pending_job = JS.Num s1 /\
    elapsedSeconds Samples.parse 1704067265000 Samples.pending_job = JS.Num s2 /\
    Spec.seconds_of_text
      (getDuration Samples.parse 1704067201000 Samples.pending_job) = Some s1 /\
    Spec.seconds_of_text
      (getDuration Samples.parse 1704067265000 Samples.pending_job) = Some s2 /\
    0 <= s1 /\ s1 <= s2.
Proof.
  apply (running_duration_monotone Samples.parse 1704067201000 1704067265000
           Samples.pending_job 1704067200000).
  - reflexivity.
  - reflexivity.
  - reflexivity.
  - lia.
Defined.

(** When a date of the job is no date the time value is [NaN], and so is
    every field of the text. *)
Lemma getDuration_invalid_date (Date_parse : string -> option Z) (now : Z)
    (scan : ScanResult.t) :
  Date_parse (ScanResult.created_at scan) = None ->
  getDuration Date_parse now scan = "NaN:NaN:NaN".
Proof.
  intros Hc. unfold getDuration, elapsedSeconds, getTime. rewrite Hc.
  destruct (JS.truthy _);
    [destruct (Date_parse (default "" _)) | destruct (negb _)];
    reflexivity.
Qed.

End DurationFacts.

(** ** Report view and pipeline health *)

Module ReportFacts.
Import Client ReportModal.

Lemma verifiedCount_passed (vs : list Verification.t) :
  length (filter (fun v => Verification.verified v = true) vs) =
  Spec.verificationPassed vs.
Proof.
  induction vs as [|v vs IH]; [reflexivity|].
  simpl Spec.verificationPassed. rewrite <- IH.
  destruct (Verification.verified v) eqn:Hv.
  - rewrite filter_cons_True by exact Hv. reflexivity.
  - rewrite filter_cons_False by (rewrite Hv; discriminate). reflexivity.
Qed.

Lemma passed_le_total (vs : list Verification.t) :
  (Spec.verificationPassed vs <= Spec.verificationTotal vs)%nat.
Proof.
  unfold Spec.verificationTotal.
  induction vs as [|v vs IH]; simpl; [lia|].
  destruct (Verification.verified v); lia.
Qed.

Lemma verifications_of_payload (st : State) :
  verifications st = Spec.verification_list (report st).
Proof.
  unfold verifications, r, Spec.verification_list.
  destruct (report st) as [rep|]; [|reflexivity]. simpl.
  destruct (ScanReport.report rep) as [e|]; [|reflexivity]. simpl.
  now destruct (Envelope.verification e).
Qed.

(** C3. For every report payload the Verify step of the pipeline row is
    marked "completed" exactly when the number of entries of the payload's
    verification list with [verified == true] equals the length of that
    list; the first number never exceeds the second, and with no
    verification entry at all the step is "completed".  The list is the
    one of the fetched payload. *)
Theorem verify_step_completed_iff (st : State) (vs : list Verification.t)
    (data : ScanReport.t) :
  verifications st = Spec.verification_list (report st) /\
  (verifyMark st = "completed" <->
     Spec.verificationPassed (Spec.verification_list (report st)) =
     Spec.verificationTotal (Spec.verification_list (report st))) /\
  verifiedCount st =
    Spec.verificationPassed (Spec.verification_list (report st)) /\
  (Spec.verificationPassed vs <= Spec.verificationTotal vs)%nat /\
  (Spec.verification_list (report st) = [] -> verifyMark st = "completed") /\
  (verifyMark st = "completed" \/ verifyMark st = "warning") /\
  (verifyMark (loadReport (Dashboard.Resolved data) st) = "completed" <->
     Spec.verificationPassed (Spec.verification_list (Some data)) =
     Spec.verificationTotal (Spec.verification_list (Some data))) /\
  verifyMark (loadReport Dashboard.Rejected st) = "completed".
Proof.
  assert (Hmark : forall s,
            verifyMark s = "completed" <->
            Spec.verificationPassed (Spec.verification_list (report s)) =
            Spec.verificationTotal (Spec.verification_list (report s))).
  { intros s. unfold verifyMark, verifiedCount.
    rewrite verifiedCount_passed, verifications_of_payload.
    unfold Spec.verificationTotal.
    destruct (Nat.eqb_spec
                (Spec.verificationPassed (Spec.verification_list (report s)))
                (length (Spec.verification_list (report s)))) as [He|Hne].
    - split; auto.
    - split; [discriminate | intros He; now destruct Hne]. }
  split; [apply verifications_of_payload|].
  split; [apply Hmark|].
  split.
  { unfold verifiedCount.
    now rewrite verifiedCount_passed, verifications_of_payload. }
  split; [apply passed_le_total|].
  split.
  { intros Hnil. apply Hmark. now rewrite Hnil. }
  split.
  { unfold verifyMark. destruct (_ =? _)%nat; auto. }
  split; [apply (Hmark (loadReport (Dashboard.Resolved data) st))|].
  now apply (Hmark (loadReport Dashboard.Rejected st)).
Qed.

Lemma keys_nil (e : Envelope.t) :
  Envelope.keys e = [] <->
  Envelope.scanner e = None /\ Envelope.ecosystem e = None /\
  Envelope.analysis e = None /\ Envelope.remediation e = None /\
  Envelope.verification e = None /\ Envelope.report e = None /\
  Envelope.error e = None /\ Envelope.other_keys e = [].
Proof.
  unfold Envelope.keys, Envelope.key. split.
  - destruct (Envelope.scanner e), (Envelope.ecosystem e),
      (Envelope.analysis e), (Envelope.remediation e),
      (Envelope.verification e), (Envelope.report e), (Envelope.error e);
      simpl; intros H; try discriminate H. now repeat split.
  - intros (-> & -> & -> & -> & -> & -> & -> & ->). reflexivity.
Qed.

Lemma renderBody_loaded (st : State) :
  loading st = false ->
  (renderBody st = ReportEmptyState <->
     report st = None \/
     exists rep, report st = Some rep /\ Spec.no_keys rep) /\
  (renderBody st <> ReportEmptyState -> renderBody st = ReportTabs).
Proof.
  intros Hl. unfold renderBody, Spec.no_keys. rewrite Hl.
  destruct (report st) as [rep|]; [|split; [split; auto | congruence]].
  destruct (ScanReport.report rep) as [e|] eqn:He.
  - destruct (Envelope.keys e) as [|k ks] eqn:Hk; simpl.
    + split; [|congruence]. split; [|trivial]. intros _. right.
      exists rep. split; [reflexivity|]. intros e' Heq.
      rewrite He in Heq. injection Heq as <-. now apply keys_nil.
    + split; [|trivial]. split; [discriminate|].
      intros [Hn|(rep' & Hrep & Hnk)]; [discriminate|].
      injection Hrep as <-. specialize (Hnk e He).
      apply keys_nil in Hnk. congruence.
  - split; [|congruence]. split; [|trivial]. intros _. right.
    exists rep. split; [reflexivity|]. intros e' Heq. congruence.
Qed.

(** C7. Once the report request has settled, the modal holds the fetched
    report, or [null] when the request failed, and shows the "no report
    data" state exactly when that report is [null] or its inner envelope
    has no key at all; in every other case it shows the tabbed views. *)
Theorem empty_state_iff (r : Dashboard.settled ScanReport.t) (st : State)
    (data : ScanReport.t) :
  report (loadReport r st) =
    (match r with
     | Dashboard.Resolved fetched => Some fetched
     | Dashboard.Rejected => None
     end) /\
  (renderBody (loadReport r st) = ReportEmptyState <->
     report (loadReport r st) = None \/
     exists rep, report (loadReport r st) = Some rep /\ Spec.no_keys rep) /\
  (renderBody (loadReport r st) <> ReportEmptyState ->
     renderBody (loadReport r st) = ReportTabs) /\
  (renderBody (loadReport (Dashboard.Resolved data) st) = ReportEmptyState <->
     Spec.no_keys data) /\
  (renderBody (loadReport (Dashboard.Resolved data) st) = ReportTabs <->
     ~ Spec.no_keys data) /\
  report (loadReport Dashboard.Rejected st) = None /\
  renderBody (loadReport Dashboard.Rejected st) = ReportEmptyState.
Proof.
  assert (Hl : forall res, loading (loadReport res st) = false)
    by (intros res; destruct res; reflexivity).
  destruct (renderBody_loaded (loadReport r st) (Hl r)) as [Hiff Helse].
  destruct (renderBody_loaded (loadReport (Dashboard.Resolved data) st) (Hl _))
    as [Hdata Hdata_else].
  assert (Hempty : renderBody (loadReport (Dashboard.Resolved data) st)
                   = ReportEmptyState <-> Spec.no_keys data).
  { rewrite Hdata. simpl. split.
    - intros [H|(rep & [= <-] & Hno)]; [discriminate | exact Hno].
    - intros Hno. right. now exists data. }
  split; [now destruct r|].
  split; [exact Hiff|]. split; [exact Helse|].
  split; [exact Hempty|]. split; [|now split].
  rewrite <- Hempty. split.
  - intros Ht He. rewrite He in Ht. discriminate.
  - exact Hdata_else.
Qed.

(** An envelope whose only key holds [null] is not empty: the tabs are
    shown, as they are for a report with a fix and no verification, whose
    Verify step is "completed"; the envelope [{}] gives the empty state. *)
Lemma renderBody_samples (st : State) :
  renderBody (loadReport (Dashboard.Resolved Samples.null_key_report) st)
    = ReportTabs /\
  renderBody (loadReport (Dashboard.Resolved Samples.fix_only_report) st)
    = ReportTabs /\
  verifyMark (loadReport (Dashboard.Resolved Samples.fix_only_report) st)
    = "completed" /\
  renderBody (loadReport (Dashboard.Resolved Samples.blank_report) st)
    = ReportEmptyState.
Proof. repeat split. Qed.

(** Until the request settles the modal shows neither: it shows the
    spinner. *)
Lemma renderBody_loading (st : State) :
  loading st = true -> renderBody st = ReportLoading.
Proof. intros Hl. unfold renderBody. now rewrite Hl. Qed.

End ReportFacts.

(** ** Verification log parser *)

Module ParserFacts.
Import ReportModal.
Import TextFacts.

Lemma strip_prefix_sound (p s rest : string) :
  strip_prefix p s = Some rest -> s = p +:+ rest.
Proof.
  revert s. induction p as [|a p IH]; intros s; simpl.
  - now intros [= ->].
  - destruct s as [|b s]; [discriminate|].
    destruct (Ascii.eqb_spec a b) as [->|]; [|discriminate].
    intros H. now rewrite append_cons, (IH _ H).
Qed.

Lemma strip_prefix_complete (p rest : string) :
  strip_prefix p (p +:+ rest) = Some rest.
Proof.
  induction p as [|a p IH]; [reflexivity|].
  rewrite append_cons. simpl. now rewrite Ascii.eqb_refl.
Qed.

Lemma strip_any_sound (alts : list string) (s rest : string) :
  strip_any alts s = Some rest -> exists c, In c alts /\ s = c +:+ rest.
Proof.
  induction alts as [|p alts IH]; simpl; [discriminate|].
  destruct (strip_prefix p s) as [r|] eqn:Hp.
  - intros [= <-]. exists p. split; [now left | now apply strip_prefix_sound].
  - intros H. destruct (IH H) as (c & Hin & Hs). exists c. split; [now right|easy].
Qed.

(** No white space character is a prefix of another: whatever follows, the
    character at the front is the one that is removed. *)
Lemma skip_space_chunk (c s : string) :
  In c white_space -> skip_space (c +:+ s) = Some s.
Proof.
  unfold white_space. cbn [map bytes].
  intros Hin. repeat (destruct Hin as [<-|Hin]; [reflexivity|]).
  destruct Hin.
Qed.

Lemma white_space_length (c : string) :
  In c white_space -> (1 <= String.length c)%nat.
Proof.
  unfold white_space. cbn [map bytes].
  intros Hin. repeat (destruct Hin as [<-|Hin]; [cbn; lia|]).
  destruct Hin.
Qed.

(** No white space character starts with a word character. *)
Lemma skip_space_word (c : ascii) (s : string) :
  is_word c = true -> skip_space (String c s) = None.
Proof.
  destruct c as [[] [] [] [] [] [] [] []]; intros H;
    solve [discriminate H | reflexivity].
Qed.

Lemma skip_space_empty : skip_space "" = None.
Proof. reflexivity. Qed.

Lemma skip_spaces_upto_sound (rounds : nat) (s : string) :
  exists ws, Spec.white ws /\ s = ws +:+ skip_spaces_upto rounds s.
Proof.
  revert s. induction rounds as [|rounds IH]; intros s; simpl.
  - exists "". split; [constructor | reflexivity].
  - destruct (skip_space s) as [s'|] eqn:Hs.
    + apply strip_any_sound in Hs as (c & Hin & ->).
      destruct (IH s') as (ws & Hws & Hs').
      exists (c +:+ ws). split; [now constructor|].
      rewrite append_assoc. now rewrite <- Hs'.
    + exists "". split; [constructor | reflexivity].
Qed.

(** The rounds granted by [skip_spaces] are enough to pass a whole run. *)
Lemma skip_spaces_upto_complete (ws t : string) (rounds : nat) :
  Spec.white ws -> skip_space t = None ->
  (String.length (ws +:+ t) <= rounds)%nat ->
  skip_spaces_upto rounds (ws +:+ t) = t.
Proof.
  intros Hws Ht. revert rounds.
  induction Hws as [|c ws Hin Hws IH]; intros rounds Hlen.
  - change ("" +:+ t) with t. destruct rounds; simpl; [reflexivity|].
    now rewrite Ht.
  - rewrite append_assoc in *. rewrite length_append in Hlen.
    pose proof (white_space_length c Hin) as Hc.
    destruct rounds as [|rounds]; [lia|]. simpl.
    rewrite (skip_space_chunk c _ Hin). apply IH. lia.
Qed.

Lemma skip_spaces_complete (ws t : string) :
  Spec.white ws -> skip_space t = None -> skip_spaces (ws +:+ t) = t.
Proof.
  intros Hws Ht. unfold skip_spaces.
  now apply skip_spaces_upto_complete.
Qed.

Lemma word_sound (s : string) :
  exists rest, s = word s +:+ rest /\
               Spec.word_chars (word s) = true /\
               Spec.starts_with_word_char rest = false.
Proof.
  induction s as [|c s (rest & Hs & Hw & Hr)]; simpl.
  - exists "". now repeat split.
  - destruct (is_word c) eqn:Hc.
    + exists rest. rewrite append_cons, <- Hs. simpl.
      rewrite Hc. now repeat split.
    + exists (String c s). now repeat split.
Qed.

Lemma word_complete (w rest : string) :
  Spec.word_chars w = true -> Spec.starts_with_word_char rest = false ->
  word (w +:+ rest) = w.
Proof.
  intros Hw Hr. induction w as [|c w IH].
  - change ("" +:+ rest) with rest. destruct rest as [|c rest]; [reflexivity|].
    simpl in *. now rewrite Hr.
  - simpl in Hw. apply andb_prop in Hw as [Hc Hw].
    rewrite append_cons. simpl. now rewrite Hc, (IH Hw).
Qed.

Lemma white_nonempty (ws : string) :
  Spec.white ws -> ws <> "" ->
  exists c ws', In c white_space /\ Spec.white ws' /\ ws = c +:+ ws'.
Proof.
  intros [|c ws' Hin Hws'] Hne; [congruence|].
  exists c, ws'. now repeat split.
Qed.

(** [\s+(\w+)] at the front of a string. *)
Lemma spaces_then_word_spec (s w : string) :
  spaces_then_word s = Some w <->
  exists ws rest,
    s = ws +:+ w +:+ rest /\ Spec.white ws /\ ws <> "" /\
    w <> "" /\ Spec.word_chars w = true /\
    Spec.starts_with_word_char rest = false.
Proof.
  unfold spaces_then_word. split.
  - destruct (skip_space s) as [s1|] eqn:Hs; [|discriminate].
    apply strip_any_sound in Hs as (c & Hin & ->).
    destruct (String.eqb_spec (word (skip_spaces s1)) "") as [|Hne];
      [discriminate|].
    intros [= <-].
    destruct (skip_spaces_upto_sound (String.length s1) s1) as (ws & Hws & Hs1).
    fold (skip_spaces s1) in Hs1.
    destruct (word_sound (skip_spaces s1)) as (rest & Hword & Hw & Hr).
    exists (c +:+ ws), rest. repeat split; try assumption.
    + rewrite append_assoc, <- Hword, <- Hs1. reflexivity.
    + now constructor.
    + pose proof (white_space_length c Hin) as Hc.
      intros Heq. apply (f_equal String.length) in Heq.
      rewrite length_append in Heq. simpl in Heq. lia.
  - intros (ws & rest & -> & Hws & Hne & Hw & Hwc & Hr).
    destruct (white_nonempty ws Hws Hne) as (c & ws' & Hin & Hws' & ->).
    rewrite append_assoc, (skip_space_chunk c _ Hin).
    assert (Hstop : skip_space (w +:+ rest) = None).
    { destruct w as [|x w]; [congruence|]. simpl in Hwc.
      apply andb_prop in Hwc as [Hx _]. rewrite append_cons.
      now apply skip_space_word. }
    rewrite (skip_spaces_complete ws' _ Hws' Hstop).
    rewrite (word_complete w rest Hwc Hr).
    destruct (String.eqb_spec w ""); [congruence | reflexivity].
Qed.

Lemma tagged_spec (tag line w : string) :
  tagged tag line = Some w <->
  exists r, line = tag +:+ ":" +:+ r /\ spaces_then_word r = Some w.
Proof.
  unfold tagged. rewrite bind_Some. split.
  - intros (r & Hr & Hw). apply bind_Some in Hr as (r0 & H0 & H1).
    apply strip_prefix_sound in H0 as ->. apply strip_prefix_sound in H1 as ->.
    now exists r.
  - intros (r & -> & Hw). exists r. split; [|exact Hw].
    apply bind_Some. exists (":" +:+ r).
    split; apply strip_prefix_complete.
Qed.

Lemma failMatch_unfold (line : string) :
  failMatch line =
    match tagged "FAIL" line with
    | Some w => Some w
    | None => tagged "ERROR" line
    end.
Proof.
  unfold failMatch. simpl.
  destruct (tagged "FAIL" line); [reflexivity|].
  now destruct (tagged "ERROR" line).
Qed.

(** The regular expression of [parsedTests], read declaratively. *)
Lemma failMatch_spec (line w : string) :
  failMatch line = Some w <-> Spec.fail_line line w.
Proof.
  rewrite failMatch_unfold. unfold Spec.fail_line. split.
  - destruct (tagged "FAIL" line) as [w'|] eqn:HF.
    + intros [= ->]. apply tagged_spec in HF as (r & -> & Hw).
      apply spaces_then_word_spec in Hw
        as (ws & rest & -> & Hws & Hne & Hw & Hwc & Hr).
      exists "FAIL", ws, rest. repeat split; auto.
    + intros HE. apply tagged_spec in HE as (r & -> & Hw).
      apply spaces_then_word_spec in Hw
        as (ws & rest & -> & Hws & Hne & Hw & Hwc & Hr).
      exists "ERROR", ws, rest. repeat split; auto.
  - intros (tag & ws & rest & Htag & -> & Hws & Hne & Hw & Hwc & Hr).
    assert (Hword : spaces_then_word (ws +:+ w +:+ rest) = Some w).
    { apply spaces_then_word_spec. exists ws, rest. now repeat split. }
    assert (Htagged : tagged tag (tag +:+ ":" +:+ ws +:+ w +:+ rest) = Some w).
    { apply tagged_spec. now exists (ws +:+ w +:+ rest). }
    destruct Htag as [-> | ->].
    + now rewrite Htagged.
    + destruct (tagged "FAIL" _) as [w'|] eqn:HF; [|exact Htagged].
      apply tagged_spec in HF as (r & Heq & _). discriminate Heq.
Qed.

(** *** The result of [parsedTests] *)

Local Open Scope list_scope.

Lemma push_failures (lines : list string) (acc : list test) :
  fold_left
    (fun (tests : list test) line =>
       match failMatch line with
       | Some w => tests ++ [Spec.failure w]
       | None => tests
       end) lines acc =
  acc ++ map Spec.failure (omap failMatch lines).
Proof.
  revert acc. induction lines as [|line lines IH]; intros acc; simpl.
  - now rewrite app_nil_r.
  - rewrite IH. destruct (failMatch line) as [w|]; simpl; [|reflexivity].
    now rewrite <- app_assoc.
Qed.

Lemma parsedTests_unfold (output : string) :
  parsedTests output =
    match omap failMatch (JS.split LF output) with
    | [] => if JS.includes output "OK" then [Spec.all_passed] else []
    | names => map Spec.failure names
    end.
Proof.
  unfold parsedTests.
  change (fold_left _ (JS.split LF output) [])
    with (fold_left
            (fun (tests : list test) line =>
               match failMatch line with
               | Some w => tests ++ [Spec.failure w]
               | None => tests
               end) (JS.split LF output) []).
  rewrite push_failures. simpl app.
  destruct (omap failMatch (JS.split LF output)) as [|w names]; simpl.
  - now destruct (JS.includes output "OK").
  - reflexivity.
Qed.

Lemma omap_nil_iff {A B : Type} (f : A -> option B) (l : list A) :
  omap f l = [] <-> forall x, In x l -> f x = None.
Proof.
  induction l as [|a l IH]; simpl.
  - split; [intros _ x [] | reflexivity].
  - destruct (f a) eqn:Ha.
    + split; [discriminate|]. intros H. specialize (H a (or_introl eq_refl)).
      congruence.
    + rewrite IH. split.
      * intros H x [<-|Hx]; auto.
      * intros H x Hx. apply H. now right.
Qed.

(** C4. [parsedTests] records, in order, one FAIL entry per line that
    starts with [FAIL:] or [ERROR:], white space and an identifier, named
    by that identifier; when no line does and the text contains [OK], the
    result is the single all-tests-passed entry.  The text with the lines
    [FAIL: test_foo (Case)] and [ERROR: test_bar] gives the two entries
    test_foo and test_bar, a text with [OK] and no such line gives exactly
    the pass entry, and the empty text gives no entry. *)
Theorem parsedTests_rule (output : string) :
  parsedTests output =
    (match omap failMatch (JS.split LF output) with
     | [] => if JS.includes output "OK" then [Spec.all_passed] else []
     | names => map Spec.failure names
     end) /\
  (forall line w, failMatch line = Some w <-> Spec.fail_line line w) /\
  (JS.includes output "OK" = true <-> exists a b, output = a +:+ "OK" +:+ b) /\
  Spec.join LF (JS.split LF output) = output /\
  ((forall line, In line (JS.split LF output) -> failMatch line = None) ->
   JS.includes output "OK" = true ->
   parsedTests output = [Spec.all_passed]) /\
  parsedTests ("FAIL: test_foo (Case)" +:+ String LF "ERROR: test_bar") =
    [Spec.failure "test_foo"; Spec.failure "test_bar"] /\
  parsedTests "Ran 3 tests in 0.004s OK" = [Spec.all_passed] /\
  parsedTests "" = [].
Proof.
  split; [apply parsedTests_unfold|].
  split; [apply failMatch_spec|].
  split; [apply includes_spec|].
  split; [apply split_spec|].
  split; [|repeat split].
  intros Hnone Hok. rewrite parsedTests_unfold.
  apply omap_nil_iff in Hnone. now rewrite Hnone, Hok.
Qed.

(** The pattern asks for white space after the colon: an identifier that
    follows the colon directly is not recorded. *)
Example parsedTests_needs_space : parsedTests "FAIL:test_foo" = [].
Proof. reflexivity. Qed.

Lemma failure_status (names : list string) :
  Forall (fun t => status t = "FAIL") (map Spec.failure names).
Proof. induction names; constructor; auto. Qed.

(** C10. The result of [parsedTests] never mixes outcomes: every entry is
    a FAIL or a PASS; a PASS entry is the whole result; there is one
    exactly when no line matched the pattern and the text contains [OK];
    and a result with a FAIL entry has no PASS entry. *)
Theorem parsedTests_outcomes (output : string) :
  Forall (fun t => status t = "FAIL" \/ status t = "PASS") (parsedTests output) /\
  (forall t, In t (parsedTests output) -> status t = "PASS" ->
             parsedTests output = [t]) /\
  ((exists t, In t (parsedTests output) /\ status t = "PASS") <->
     (forall line, In line (JS.split LF output) -> failMatch line = None) /\
     JS.includes output "OK" = true) /\
  ((exists t, In t (parsedTests output) /\ status t = "FAIL") ->
   ~ exists t, In t (parsedTests output) /\ status t = "PASS").
Proof.
  rewrite parsedTests_unfold, <- omap_nil_iff.
  destruct (omap failMatch (JS.split LF output)) as [|w names] eqn:Hnames.
  - destruct (JS.includes output "OK").
    + split; [|split; [|split]].
      * constructor; [now right | constructor].
      * intros t [<-|[]] _. reflexivity.
      * split; [intros _; now split|].
        intros _. exists Spec.all_passed. split; [now left | reflexivity].
      * intros (t & [<-|[]] & Hf). discriminate Hf.
    + split; [|split; [|split]].
      * constructor.
      * intros t [].
      * split; [intros (t & [] & _) | intros [_ H]; discriminate H].
      * intros (t & [] & _).
  - pose proof (failure_status (w :: names)) as Hfail.
    rewrite List.Forall_forall in Hfail.
    assert (Hno : ~ exists t, In t (map Spec.failure (w :: names)) /\
                              status t = "PASS").
    { intros (t & Hin & Hp). apply Hfail in Hin. congruence. }
    split; [|split; [|split]].
    + apply List.Forall_forall. intros t Hin. left. now apply Hfail.
    + intros t Hin Hp. destruct Hno. now exists t.
    + split; [intros H; now destruct Hno | intros [H _]; discriminate H].
    + intros _. exact Hno.
Qed.

End ParserFacts.

(** ** Refresh, cancel and the token modal *)

Module HandlerFacts.
Import Client Dashboard.

(** X1. A refresh that is not silent raises the loading flag and clears
    the error while its request is in flight, and ends with the loading
    flag down; when the request fails the job table is kept and the error
    message is set, when it succeeds the table is the fetched list and no
    error is shown. *)
Theorem manual_refresh_outcome (r : settled (list ScanResult.t)) (st : State) :
  loading (fetchScans_request false st) = true /\
  error (fetchScans_request false st) = None /\
  scans (fetchScans_request false st) = scans st /\
  loading (fetchScans false r st) = false /\
  scans (fetchScans false r st) = default (scans st) (fetched r) /\
  error (fetchScans false r st) =
    (match r with
     | Resolved _ => None
     | Rejected => Some "Failed to fetch scans"
     end).
Proof. destruct r; repeat split. Qed.

Lemma poll_snoc (rs : list (settled (list ScanResult.t)))
    (r : settled (list ScanResult.t)) (st : State) :
  poll (rs ++ [r]) st = fetchScans true r (poll rs st).
Proof. unfold poll. now rewrite fold_left_app. Qed.

(** X2. Background polling never touches the loading flag or the error:
    after any number of silent refreshes both are as before, so the error
    of a failed manual refresh stays on screen until the next manual
    refresh; and the job table is the list of the last poll that
    succeeded, or the table from before when none did. *)
Theorem poll_keeps_flags (rs : list (settled (list ScanResult.t))) (st : State) :
  loading (poll rs st) = loading st /\
  error (poll rs st) = error st /\
  scans (poll rs st) = default (scans st) (last (omap fetched rs)) /\
  error (poll rs (fetchScans false Rejected st)) = Some "Failed to fetch scans".
Proof.
  assert (H : loading (poll rs st) = loading st /\
              error (poll rs st) = error st /\
              scans (poll rs st) = default (scans st) (last (omap fetched rs))).
  { induction rs as [|r rs IH] using rev_ind; [now repeat split|].
    destruct IH as (Hl & He & Hs).
    rewrite poll_snoc, omap_app.
    destruct r as [data|]; simpl.
    - rewrite last_snoc. repeat split; assumption.
    - rewrite app_nil_r. repeat split; assumption. }
  destruct H as (Hl & He & Hs). repeat split; try assumption.
  clear. induction rs as [|r rs IH] using rev_ind; [reflexivity|].
  rewrite poll_snoc. now destruct r.
Qed.

(** X3. Opening the token modal shows "Loading..." for the chosen job
    whatever logs were there before; when the request settles the modal
    shows the fetched logs, or the empty state when the request failed or
    returned no log.  The job table and its flags are not touched. *)
Theorem open_token_modal (scanId : Z) (r : settled (list ScanLog.t)) (st : State) :
  tokenModal (openTokenModal_request scanId st) = ModalLoading scanId /\
  tokenModal (openTokenModal_settle r (openTokenModal_request scanId st)) =
    (match r with
     | Resolved (l :: logs) => ModalTable scanId (l :: logs)
     | _ => ModalEmpty scanId
     end) /\
  scanLogs (openTokenModal_settle Rejected (openTokenModal_request scanId st)) = [] /\
  scans (openTokenModal_settle r (openTokenModal_request scanId st)) = scans st /\
  loading (openTokenModal_settle r (openTokenModal_request scanId st)) = loading st /\
  error (openTokenModal_settle r (openTokenModal_request scanId st)) = error st.
Proof. destruct r as [[|l logs]|]; repeat split. Qed.

(** X4. A poll of the logs that fails changes nothing, unlike the first
    request of the modal, which empties the list.  A poll that succeeds
    replaces the list without looking at the job it was made for: when the
    answer for another job arrives after the modal was opened for
    [scanId], its logs are shown under [scanId]; and after the modal was
    closed it fills the list again although the modal stays hidden. *)
Theorem log_poll_outcome (scanId : Z) (l : ScanLog.t) (logs : list ScanLog.t)
    (r : settled (list ScanLog.t)) (st : State) :
  silentFetchTokenLogs_settle Rejected st = st /\
  tokenModal
    (silentFetchTokenLogs_settle (Resolved (l :: logs))
       (openTokenModal_settle r (openTokenModal_request scanId st))) =
    ModalTable scanId (l :: logs) /\
  scanLogs (closeModal st) = [] /\
  tokenModal (closeModal st) = ModalHidden /\
  scanLogs (silentFetchTokenLogs_settle (Resolved (l :: logs)) (closeModal st)) =
    l :: logs /\
  tokenModal (silentFetchTokenLogs_settle (Resolved (l :: logs)) (closeModal st)) =
    ModalHidden.
Proof. destruct r as [[|l' logs']|]; repeat split. Qed.

(** X5. Cancelling a job never raises the loading flag or changes the
    error.  When the cancel request fails there is exactly one alert and
    the state is untouched; when it succeeds there is no alert, even if
    the refresh that follows fails, and the job table is the refreshed
    list when that refresh succeeds. *)
Theorem cancel_outcome (cancel : settled unit)
    (refresh : settled (list ScanResult.t)) (st : State) :
  loading (handleCancelScan cancel refresh st).1 = loading st /\
  error (handleCancelScan cancel refresh st).1 = error st /\
  handleCancelScan Rejected refresh st = (st, ["Failed to cancel scan"]) /\
  (handleCancelScan (Resolved tt) refresh st).2 = [] /\
  scans (handleCancelScan (Resolved tt) refresh st).1 =
    default (scans st) (fetched refresh).
Proof. destruct cancel as [[]|], refresh; repeat split. Qed.

(** X6. The Cancel button is offered exactly for the jobs whose duration
    is live; a job whose Report button is disabled, or that shows the
    spinner, always has the Cancel button; and no job has both the spinner
    and a disabled Report button. *)
Theorem row_controls (scan : ScanResult.t) :
  showCancel scan = isRunning scan /\
  showCancel scan = showSpinner scan || reportDisabled scan /\
  (reportDisabled scan = true -> showCancel scan = true) /\
  (showSpinner scan = true -> showCancel scan = true) /\
  showSpinner scan && reportDisabled scan = false.
Proof.
  unfold showCancel, isRunning, showSpinner, reportDisabled.
  destruct (String.eqb (JS.toLowerCase (ScanResult.status scan)) "pending") eqn:Hp.
  - apply String.eqb_eq in Hp. rewrite Hp. now repeat split.
  - destruct (String.eqb (JS.toLowerCase (ScanResult.status scan)) "queued");
      now repeat split.
Qed.

End HandlerFacts.

(** ** The clock text *)

Module ClockFacts.
Import Client Dashboard.
Import TextFacts DurationFacts.

(** X7. The duration of a job whose [ended_at] is set does not depend on
    the clock. *)
Theorem ended_duration_frozen (Date_parse : string -> option Z)
    (now1 now2 : Z) (scan : ScanResult.t)
    (Hended : JS.truthy (ScanResult.ended_at scan) = true) :
  getDuration Date_parse now1 scan = getDuration Date_parse now2 scan.
Proof.
  unfold getDuration, elapsedSeconds. now rewrite Hended.
Qed.

Lemma ended_duration_frozen_witness :
  getDuration Samples.parse2 1704067265000 Samples.finished_job =
  getDuration Samples.parse2 1999999999000 Samples.finished_job.
Proof.
  apply (ended_duration_frozen Samples.parse2 1704067265000 1999999999000
           Samples.finished_job).
  reflexivity.
Defined.

(** X8. A job that is neither pending nor queued and has no [ended_at]
    shows 00:00:00 at every time, when its creation date is a date. *)
Theorem terminal_without_end_is_zero (Date_parse : string -> option Z)
    (now : Z) (scan : ScanResult.t)
    (Hcreated : is_Some (Date_parse (ScanResult.created_at scan)))
    (Hterminal : isRunning scan = false)
    (Hnot_ended : JS.truthy (ScanResult.ended_at scan) = false) :
  getDuration Date_parse now scan = "00:00:00".
Proof.
  destruct Hcreated as [created Hc].
  unfold getDuration, elapsedSeconds, getTime.
  rewrite Hnot_ended, Hterminal, Hc. simpl.
  rewrite Z.sub_diag. reflexivity.
Qed.

Lemma terminal_without_end_is_zero_witness :
  getDuration Samples.parse2 1999999999000 Samples.legacy_job = "00:00:00".
Proof.
  apply (terminal_without_end_is_zero Samples.parse2 1999999999000
           Samples.legacy_job).
  - now exists 1704067200000.
  - reflexivity.
  - reflexivity.
Defined.

Lemma Z_toString_three (n : Z) :
  100 <= n -> (3 <= String.length (JS.Z_toString n))%nat.
Proof.
  intros Hn. unfold JS.Z_toString.
  destruct (to_int_pos n) as (d & Hd & Hnil); [lia|].
  pose proof (DecimalZ.of_to n) as Hback. rewrite Hd in *.
  destruct d as [|d|d|d|d|d|d|d|d|d|d]; try congruence;
    (destruct d as [|d|d|d|d|d|d|d|d|d|d];
     [ vm_compute in Hback; lia | .. ];
     (destruct d as [|d|d|d|d|d|d|d|d|d|d];
      [ vm_compute in Hback; lia | simpl; lia .. ])).
Qed.

Lemma two_digits_length (n : Z) :
  0 <= n ->
  if n <? 100 then String.length (Spec.two_digits n) = 2%nat
  else (3 <= String.length (Spec.two_digits n))%nat.
Proof.
  intros Hn. destruct (Z.ltb_spec n 100) as [Hlt|Hge].
  - revert n Hn Hlt.
    enough (H : forall n, 0 <= n < 100 ->
                          String.length (Spec.two_digits n) = 2%nat)
      by (intros; apply H; lia).
    apply lt_100_cases. intros k Hk. apply Nat.eqb_eq. revert k Hk.
    apply (below_100 (fun k =>
      (String.length (Spec.two_digits (Z.of_nat k)) =? 2)%nat)).
    vm_compute. reflexivity.
  - unfold Spec.two_digits. destruct (Z.ltb_spec n 100); [lia|].
    now apply Z_toString_three.
Qed.

(** X9. The text of a number of seconds that is not negative reads back
    as that number, so two different durations never show the same text;
    the text has eight characters exactly when the duration is below 100
    hours, and is longer from there on. *)
Theorem clock_text_round_trip (s : Z) (Hs : 0 <= s) :
  Spec.seconds_of_text (formatSeconds (JS.Num s)) = Some s /\
  (forall s', 0 <= s' ->
     formatSeconds (JS.Num s') = formatSeconds (JS.Num s) -> s' = s) /\
  (String.length (formatSeconds (JS.Num s)) = 8%nat <-> s < 360000) /\
  (8 <= String.length (formatSeconds (JS.Num s)))%nat.
Proof.
  assert (Hread : forall t, 0 <= t ->
            Spec.seconds_of_text (formatSeconds (JS.Num t)) = Some t).
  { intros t Ht. rewrite formatSeconds_HH_MM_SS by exact Ht.
    now apply seconds_of_HH_MM_SS. }
  split; [now apply Hread|].
  split.
  { intros s' Hs' Heq. apply (f_equal Spec.seconds_of_text) in Heq.
    rewrite !Hread in Heq by assumption. congruence. }
  rewrite formatSeconds_HH_MM_SS by exact Hs. unfold Spec.HH_MM_SS.
  destruct (clock_fields s Hs) as (_ & _ & Hh & Hmin & Hsec & Hsum).
  rewrite !length_append. simpl String.length.
  pose proof (two_digits_length (s / 3600) Hh) as Lh.
  pose proof (two_digits_length (s / 60 mod 60) (proj1 Hmin)) as Lm.
  pose proof (two_digits_length (s mod 60) (proj1 Hsec)) as Ls.
  destruct (Z.ltb_spec (s / 60 mod 60) 100); [|lia].
  destruct (Z.ltb_spec (s mod 60) 100); [|lia].
  destruct (Z.ltb_spec (s / 3600) 100) as [Hlt|Hge].
  - split; [|lia]. split; [intros _|lia].
    Z.to_euclidean_division_equations. lia.
  - split; [|lia]. split; [lia|]. intros Hlt.
    Z.to_euclidean_division_equations. lia.
Qed.

Lemma clock_text_round_trip_witness :
  Spec.seconds_of_text (formatSeconds (JS.Num 360000)) = Some 360000.
Proof.
  apply (clock_text_round_trip 360000). lia.
Defined.

End ClockFacts.

(** ** The token table *)

Module EstimateFacts.
Import Client Dashboard.
Import LedgerFacts.

Lemma amountCell_dash (toLocaleString : Z -> string) (n : Z) :
  amountCell toLocaleString n = "—" <-> n <= 0.
Proof.
  unfold amountCell. destruct (Z.ltb_spec 0 n); split; try lia; try reflexivity.
  intros H'. discriminate H'.
Qed.

(** X10. The effective figures are never negative, whatever the counts of
    the log are, and neither are the cells of the total row.  The total
    cell of a row is a dash exactly when both its input cell and its output
    cell are, and the row has the class [has-tokens] exactly when it is
    not. *)
Theorem effective_tokens_nonneg (toLocaleString : Z -> string)
    (log : ScanLog.t) (logs : list ScanLog.t) :
  0 <= getInput log /\ 0 <= getOutput log /\ 0 <= getTotal log /\
  0 <= totalInput logs /\ 0 <= totalOutput logs /\ 0 <= totalTokens logs /\
  (amountCell toLocaleString (getTotal log) = "—" <->
     amountCell toLocaleString (getInput log) = "—" /\
     amountCell toLocaleString (getOutput log) = "—") /\
  (rowClass log = "has-tokens" <->
     amountCell toLocaleString (getTotal log) <> "—").
Proof.
  pose proof (getInput_nonneg log) as Hi.
  pose proof (getOutput_nonneg log) as Ho.
  pose proof (getTotal_nonneg log) as Ht.
  pose proof (NumberFacts.add_pos_iff _ _ Hi Ho) as Hpos.
  fold (getTotal log) in Hpos.
  rewrite !amountCell_dash. unfold rowClass.
  split; [exact Hi|]. split; [exact Ho|]. split; [exact Ht|].
  split; [apply reduce_sum_nonneg, getInput_nonneg|].
  split; [apply reduce_sum_nonneg, getOutput_nonneg|].
  split; [apply reduce_sum_nonneg, getTotal_nonneg|].
  split; [lia|].
  destruct (Z.ltb_spec 0 (getTotal log)); split; try lia; try reflexivity.
  discriminate.
Qed.

(** X11. The two phases of the table never show a dash: the effective
    input and output of an "Ecosystem Detection" or "Remediation" log are
    positive whatever its counts are, zero or negative counts included. *)
Theorem known_phase_always_has_figures (log : ScanLog.t)
    (Hstep : ScanLog.step log = "Ecosystem Detection" \/
             ScanLog.step log = "Remediation") :
  0 < getInput log /\ 0 < getOutput log /\ 0 < getTotal log /\
  rowClass log = "has-tokens".
Proof.
  assert (Hi : 0 < getInput log).
  { unfold getInput. rewrite fallback_input_lookup.
    destruct (Z.ltb_spec 0 (ScanLog.tokens_input log)); [lia|].
    unfold Spec.fallback_input. destruct Hstep as [-> | ->]; now vm_compute. }
  assert (Ho : 0 < getOutput log).
  { unfold getOutput. rewrite fallback_output_lookup.
    destruct (Z.ltb_spec 0 (ScanLog.tokens_output log)); [lia|].
    unfold Spec.fallback_output. destruct Hstep as [-> | ->]; now vm_compute. }
  assert (Ht : 0 < getTotal log).
  { unfold getTotal. apply NumberFacts.add_pos_iff; lia. }
  unfold rowClass. repeat split; try assumption.
  destruct (Z.ltb_spec 0 (getTotal log)); [reflexivity|lia].
Qed.

Lemma known_phase_always_has_figures_witness :
  0 < getInput Samples.remediation_log /\
  0 < getOutput Samples.remediation_log /\
  0 < getTotal Samples.remediation_log /\
  rowClass Samples.remediation_log = "has-tokens".
Proof.
  apply (known_phase_always_has_figures Samples.remediation_log).
  right. reflexivity.
Defined.

Lemma sum_over_app (f : ScanLog.t -> Z) (l1 l2 : list ScanLog.t) :
  Spec.sum_over f (l1 ++ l2) = Spec.sum_over f l1 + Spec.sum_over f l2.
Proof. induction l1 as [|l l1 IH]; simpl; lia. Qed.

Lemma sum_over_perm (f : ScanLog.t -> Z) (l1 l2 : list ScanLog.t) :
  l1 ≡ₚ l2 -> Spec.sum_over f l1 = Spec.sum_over f l2.
Proof. induction 1; simpl; lia. Qed.

(** The three cells of the total row of a list whose figures add up to at
    most 2^53 are the exact sums. *)
Lemma totals_exact (logs : list ScanLog.t) :
  Spec.sum_over getInput logs + Spec.sum_over getOutput logs <= JS.exact_limit ->
  totalInput logs = Spec.sum_over getInput logs /\
  totalOutput logs = Spec.sum_over getOutput logs /\
  totalTokens logs = Spec.sum_over getInput logs + Spec.sum_over getOutput logs.
Proof.
  intros Hb.
  pose proof (sum_over_nonneg getInput logs getInput_nonneg) as Hi.
  pose proof (sum_over_nonneg getOutput logs getOutput_nonneg) as Ho.
  pose proof (sum_over_total logs Hb) as Hsum.
  unfold totalInput, totalOutput, totalTokens.
  rewrite !reduce_sum_sum_over
    by (try apply getInput_nonneg; try apply getOutput_nonneg;
        try apply getTotal_nonneg; lia).
  repeat split. exact Hsum.
Qed.

(** X12. For logs whose effective inputs and outputs add up to at most
    2^53, where the sums of the total row are exact, the total row adds up
    over the parts of the log list, does not depend on the order of the
    logs, and no row shows more than the total row. *)
Theorem total_row_composes (logs1 logs2 : list ScanLog.t)
    (Hbound : Spec.sum_over getInput (logs1 ++ logs2) +
              Spec.sum_over getOutput (logs1 ++ logs2) <= JS.exact_limit) :
  totalTokens (logs1 ++ logs2) = totalTokens logs1 + totalTokens logs2 /\
  totalInput (logs1 ++ logs2) = totalInput logs1 + totalInput logs2 /\
  totalOutput (logs1 ++ logs2) = totalOutput logs1 + totalOutput logs2 /\
  (forall logs, logs ≡ₚ logs1 ++ logs2 ->
     totalTokens logs = totalTokens (logs1 ++ logs2) /\
     totalInput logs = totalInput (logs1 ++ logs2) /\
     totalOutput logs = totalOutput (logs1 ++ logs2)) /\
  (forall log, In log (logs1 ++ logs2) ->
     getInput log <= totalInput (logs1 ++ logs2) /\
     getOutput log <= totalOutput (logs1 ++ logs2) /\
     getTotal log <= totalTokens (logs1 ++ logs2)).
Proof.
  pose proof (sum_over_nonneg getInput logs1 getInput_nonneg).
  pose proof (sum_over_nonneg getOutput logs1 getOutput_nonneg).
  pose proof (sum_over_nonneg getInput logs2 getInput_nonneg).
  pose proof (sum_over_nonneg getOutput logs2 getOutput_nonneg).
  destruct (totals_exact (logs1 ++ logs2) Hbound) as (Ti & To & Tt).
  rewrite !sum_over_app in Hbound.
  destruct (totals_exact logs1) as (Ti1 & To1 & Tt1); [lia|].
  destruct (totals_exact logs2) as (Ti2 & To2 & Tt2); [lia|].
  rewrite Ti, To, Tt, Ti1, To1, Tt1, Ti2, To2, Tt2, !sum_over_app.
  split; [lia|]. split; [reflexivity|]. split; [reflexivity|]. split.
  - intros logs Hperm.
    pose proof (sum_over_perm getInput _ _ Hperm) as Pi.
    pose proof (sum_over_perm getOutput _ _ Hperm) as Po.
    rewrite !sum_over_app in Pi, Po.
    destruct (totals_exact logs) as (Ti' & To' & Tt'); [lia|].
    rewrite Ti', To', Tt', Pi, Po. now repeat split.
  - intros log Hin.
    pose proof (sum_over_member getInput log _ getInput_nonneg Hin) as Mi.
    pose proof (sum_over_member getOutput log _ getOutput_nonneg Hin) as Mo.
    rewrite !sum_over_app in Mi, Mo.
    rewrite getTotal_exact by lia. repeat split; lia.
Qed.

Lemma total_row_composes_witness :
  totalTokens ([Samples.remediation_log] ++ [Samples.scanner_log]) =
  totalTokens [Samples.remediation_log] + totalTokens [Samples.scanner_log].
Proof.
  refine (proj1 (total_row_composes [Samples.remediation_log]
                   [Samples.scanner_log] _)).
  vm_compute. discriminate.
Defined.

End EstimateFacts.

(** ** The scan request *)

Module ApiFacts.
Import Api.

(** X13. The parameters of a scan request always carry [repo_url]; they
    carry [target_url] and [github_token] exactly when the argument is
    given and not empty, with the argument as value, so neither is ever
    sent empty; and they carry no other key. *)
Theorem triggerScan_params_keys (repoUrl : string)
    (targetUrl githubToken : option string) (k : string) :
  triggerScan_params repoUrl targetUrl githubToken !! "repo_url" = Some repoUrl /\
  triggerScan_params repoUrl targetUrl githubToken !! "target_url" =
    (if JS.truthy targetUrl then targetUrl else None) /\
  triggerScan_params repoUrl targetUrl githubToken !! "github_token" =
    (if JS.truthy githubToken then githubToken else None) /\
  triggerScan_params repoUrl targetUrl githubToken !! "target_url" <> Some "" /\
  triggerScan_params repoUrl targetUrl githubToken !! "github_token" <> Some "" /\
  (k <> "repo_url" -> k <> "target_url" -> k <> "github_token" ->
   triggerScan_params repoUrl targetUrl githubToken !! k = None).
Proof.
  unfold triggerScan_params, JS.truthy.
  destruct targetUrl as [t|], githubToken as [g|]; simpl;
    repeat (match goal with
            | |- context [String.eqb ?s ""] =>
                destruct (String.eqb_spec s "")
            end; simpl);
    repeat split; intros; simplify_map_eq; congruence.
Qed.

End ApiFacts.

(** ** Paths *)

Module PathFacts.
Import ReportModal.
Import TextFacts.

Local Open Scope list_scope.

(** Splitting distributes over a separator. *)
Lemma split_app (sep : ascii) (a b : string) :
  JS.split sep (a +:+ String sep b) = JS.split sep a ++ JS.split sep b.
Proof.
  induction a as [|c a IH].
  - change ("" +:+ String sep b) with (String sep b). simpl.
    now rewrite Ascii.eqb_refl.
  - rewrite append_cons. simpl. rewrite IH.
    destruct (Ascii.eqb c sep); [reflexivity|].
    pose proof (split_nonempty sep a) as Hne.
    destruct (JS.split sep a) as [|h t]; [congruence | reflexivity].
Qed.

Lemma last_app_nonempty {A : Type} (l m : list A) :
  m <> [] -> last (l ++ m) = last m.
Proof.
  intros Hm. induction l as [|x l IH]; [reflexivity|].
  simpl. rewrite <- IH. destruct (l ++ m) eqn:E; [|reflexivity].
  apply app_eq_nil in E as [_ ->]. congruence.
Qed.

Lemma lastSegment_after (sep : ascii) (dir name : string) :
  lastSegment sep (dir +:+ String sep name) = lastSegment sep name.
Proof.
  unfold lastSegment. rewrite split_app.
  apply last_app_nonempty, split_nonempty.
Qed.

Lemma lastSegment_free (sep : ascii) (name : string) :
  Spec.free_of sep name = true -> lastSegment sep name = Some name.
Proof. intros H. unfold lastSegment. now rewrite split_free. Qed.

Lemma join_last (sep : ascii) (l : list string) (seg : string) :
  last l = Some seg -> exists pre, Spec.join sep l = pre +:+ seg.
Proof.
  induction l as [|x l IH]; [discriminate|].
  destruct l as [|y l].
  - intros [= ->]. now exists "".
  - intros H. destruct (IH H) as (pre & Hpre).
    exists (x +:+ String sep pre).
    change (Spec.join sep (x :: y :: l))
      with (x +:+ String sep (Spec.join sep (y :: l))).
    rewrite Hpre, append_assoc. reflexivity.
Qed.

(** X14. The last piece of a path, as [path.split(sep).pop()] gives it:
    there always is one, it is an end of the path without a separator in
    it, it is what follows the last separator, the whole path when the
    path has no separator, and empty when the path ends with one. *)
Theorem lastSegment_rule (sep : ascii) (path dir name : string) :
  (exists pre seg,
     lastSegment sep path = Some seg /\ path = pre +:+ seg /\
     Spec.free_of sep seg = true) /\
  (Spec.free_of sep name = true ->
     lastSegment sep (dir +:+ String sep name) = Some name /\
     lastSegment sep name = Some name) /\
  lastSegment sep (dir +:+ String sep "") = Some "".
Proof.
  split; [|split].
  - destruct (split_spec sep path) as [Hjoin Hfree].
    unfold lastSegment.
    destruct (last (JS.split sep path)) as [seg|] eqn:Hlast.
    + destruct (join_last sep _ _ Hlast) as (pre & Hpre).
      exists pre, seg. repeat split.
      * now rewrite <- Hpre.
      * rewrite List.Forall_forall in Hfree. apply Hfree.
        apply list_elem_of_In. now apply last_Some_elem_of.
    + apply last_None in Hlast. now destruct (split_nonempty sep path).
  - intros Hfree. rewrite lastSegment_after. split; now apply lastSegment_free.
  - rewrite lastSegment_after. reflexivity.
Qed.

Lemma getFileExt_free (ext : string) :
  Spec.free_of "." ext = true ->
  getFileExt JS.toLowerCase ext = JS.toLowerCase ext.
Proof.
  intros H. unfold getFileExt. rewrite lastSegment_free by exact H.
  simpl. now destruct (String.eqb_spec (JS.toLowerCase ext) "") as [->|].
Qed.

Lemma getFileExt_after (toLowerCase : string -> string) (dir ext : string) :
  getFileExt toLowerCase (dir +:+ String "." ext) = getFileExt toLowerCase ext.
Proof. unfold getFileExt. now rewrite lastSegment_after. Qed.

Lemma eqb_lower (ext label : string) :
  JS.toLowerCase label = label ->
  String.eqb (JS.toLowerCase ext) label = Spec.same_ignoring_case ext label.
Proof. intros H. now rewrite same_ignoring_case_lower, H. Qed.

(** X15. The icon of a path depends only on what follows its last dot,
    and not on the case of those letters; a path without a dot is taken as
    its own extension; the icon is the plain file icon unless that text is
    one of the eight known extensions, as it is for a path that ends with
    a dot. *)
Theorem getLangIcon_rule (dir ext ext' : string) :
  getLangIcon (dir +:+ "." +:+ ext) = getLangIcon ext /\
  getLangIcon (dir +:+ ".") = "📄" /\
  (Spec.free_of "." ext = true ->
     (Spec.free_of "." ext' = true ->
      Spec.same_ignoring_case ext ext' = true ->
      getLangIcon ext = getLangIcon ext') /\
     (getLangIcon ext = "🐍" <-> Spec.same_ignoring_case ext "py" = true) /\
     (getLangIcon ext <> "📄" <->
        existsb (Spec.same_ignoring_case ext)
          ["py"; "js"; "ts"; "jsx"; "tsx"; "java"; "go"; "rb"] = true)).
Proof.
  split; [|split].
  - unfold getLangIcon.
    change (dir +:+ "." +:+ ext) with (dir +:+ String "." ext).
    now rewrite getFileExt_after.
  - unfold getLangIcon.
    change (dir +:+ ".") with (dir +:+ String "." "").
    now rewrite getFileExt_after.
  - intros Hfree. split; [|split].
    + intros Hfree' Hsame. unfold getLangIcon.
      rewrite !getFileExt_free by assumption.
      rewrite same_ignoring_case_lower in Hsame.
      apply String.eqb_eq in Hsame. now rewrite Hsame.
    + unfold getLangIcon. rewrite getFileExt_free by assumption.
      rewrite !eqb_lower by reflexivity.
      destruct (Spec.same_ignoring_case ext "py"); [easy|].
      repeat (match goal with
              | |- context [Spec.same_ignoring_case ext ?l] =>
                  destruct (Spec.same_ignoring_case ext l)
              end; simpl); split; discriminate.
    + unfold getLangIcon. rewrite getFileExt_free by assumption.
      rewrite !eqb_lower by reflexivity. simpl existsb.
      repeat (match goal with
              | |- context [Spec.same_ignoring_case ext ?l] =>
                  destruct (Spec.same_ignoring_case ext l)
              end; simpl); split; congruence.
Qed.

End PathFacts.

(** ** Cards and tabs of the report *)

Module CardFacts.
Import Client ReportModal.
Import TextFacts ReportFacts ParserFacts PathFacts.

Local Open Scope list_scope.

Lemma all_verified (vs : list Verification.t) :
  Spec.verificationPassed vs = length vs ->
  forall v, In v vs -> Verification.verified v = true.
Proof.
  induction vs as [|u vs IH]; simpl; [intros _ v []|].
  pose proof (passed_le_total vs) as Hle. unfold Spec.verificationTotal in Hle.
  destruct (Verification.verified u) eqn:Hu; [|lia].
  intros H v [<-|Hin]; [exact Hu|]. apply IH; [lia | exact Hin].
Qed.

Lemma find_first {A : Type} (f : A -> bool) (pre : list A) (x : A) (rest : list A) :
  (forall u, In u pre -> f u = false) -> f x = true ->
  List.find f (pre ++ x :: rest) = Some x.
Proof.
  intros Hpre Hx. induction pre as [|u pre IH]; simpl.
  - now rewrite Hx.
  - rewrite (Hpre u (or_introl eq_refl)). apply IH.
    intros w Hw. apply Hpre. now right.
Qed.

(** X16. The badge of a fix card comes from the first verification entry
    with the path of the fix: a fix without such an entry has no badge;
    with several entries the first one decides; and when the Verify step
    is "completed" no fix card carries the "fail" badge. *)
Theorem fix_badge_rule (st : State) (fx : Remediation.t) :
  (fixBadge st fx = None <->
     forall v, In v (verifications st) ->
               Verification.path v <> Remediation.path fx) /\
  (forall pre v rest,
     verifications st = pre ++ v :: rest ->
     (forall u, In u pre -> Verification.path u <> Remediation.path fx) ->
     Verification.path v = Remediation.path fx ->
     fixBadge st fx = Some (if Verification.verified v then "pass" else "fail")) /\
  (verifyMark st = "completed" -> fixBadge st fx <> Some "fail").
Proof.
  unfold fixBadge, findVerification. split; [|split].
  - destruct (List.find _ (verifications st)) as [v|] eqn:Hfind; simpl.
    + split; [discriminate|]. intros H.
      apply find_some in Hfind as [Hin Heq].
      apply String.eqb_eq in Heq. now destruct (H v Hin).
    + split; [|reflexivity]. intros _ v Hin Heq.
      apply (find_none _ _ Hfind) in Hin.
      apply String.eqb_neq in Hin. contradiction.
  - intros pre v rest -> Hpre Hv.
    rewrite (find_first _ pre v rest); [reflexivity| |now apply String.eqb_eq].
    intros u Hu. apply String.eqb_neq. now apply Hpre.
  - intros Hmark.
    assert (Hall : Spec.verificationPassed (verifications st) =
                   length (verifications st)).
    { unfold verifyMark in Hmark.
      rewrite <- (verifiedCount_passed (verifications st)).
      fold (verifiedCount st).
      destruct (Nat.eqb_spec (verifiedCount st) (length (verifications st)));
        [assumption | discriminate]. }
    destruct (List.find _ (verifications st)) as [v|] eqn:Hfind;
      [|discriminate].
    apply find_some in Hfind as [Hin _]. simpl.
    rewrite (all_verified _ Hall v Hin). discriminate.
Qed.



End CardFacts.

(** ** More on the verification log parser *)

Module LogFacts.
Import ReportModal.
Import TextFacts ParserFacts PathFacts.

Local Open Scope list_scope.

Lemma failures_of (output : string) :
  List.filter Spec.is_failure (parsedTests output) =
  map Spec.failure (omap failMatch (JS.split LF output)).
Proof.
  rewrite parsedTests_unfold.
  destruct (omap failMatch (JS.split LF output)) as [|w names].
  - now destruct (JS.includes output "OK").
  - generalize (w :: names). intros l.
    induction l as [|x l IH]; [reflexivity|]. simpl. now rewrite IH.
Qed.

(** X18. The failures found in two texts joined by a line feed are the
    failures of the first followed by those of the second. *)
Theorem failures_compose (a b : string) :
  List.filter Spec.is_failure (parsedTests (a +:+ String LF b)) =
  List.filter Spec.is_failure (parsedTests a) ++
  List.filter Spec.is_failure (parsedTests b).
Proof.
  rewrite !failures_of, split_app, omap_app. apply map_app.
Qed.

Lemma omap_length_le {A B : Type} (f : A -> option B) (l : list A) :
  (length (omap f l) <= length l)%nat.
Proof.
  induction l as [|a l IH]; [reflexivity|].
  change (omap f (a :: l))
    with (match f a with Some y => y :: omap f l | None => omap f l end).
  destruct (f a); simpl; lia.
Qed.

Lemma omap_In {A B : Type} (f : A -> option B) (l : list A) (y : B) :
  In y (omap f l) -> exists x, In x l /\ f x = Some y.
Proof.
  induction l as [|a l IH]; simpl; [intros []|].
  destruct (f a) as [b|] eqn:Ha.
  - intros [<-|Hin].
    + exists a. split; [now left | exact Ha].
    + destruct (IH Hin) as (x & Hx & Hf). exists x. split; [now right | exact Hf].
  - intros Hin. destruct (IH Hin) as (x & Hx & Hf).
    exists x. split; [now right | exact Hf].
Qed.

(** X19. [parsedTests] never returns more entries than the text has
    lines, and every FAIL entry is named by a word of the text that is not
    empty and made of word characters only, found on a line of the text,
    and has no details. *)
Theorem parsedTests_bounds (output : string) :
  (length (parsedTests output) <= length (JS.split LF output))%nat /\
  (forall t, In t (parsedTests output) -> status t = "FAIL" ->
     name t <> "" /\ Spec.word_chars (name t) = true /\ details t = None /\
     exists line, In line (JS.split LF output) /\ Spec.fail_line line (name t)).
Proof.
  rewrite parsedTests_unfold. split.
  - pose proof (omap_length_le failMatch (JS.split LF output)) as Hle.
    pose proof (split_nonempty LF output) as Hne.
    destruct (omap failMatch (JS.split LF output)) as [|w names].
    + destruct (JS.split LF output); [congruence|].
      destruct (JS.includes output "OK"); simpl; lia.
    + now rewrite length_map.
  - intros t Hin Hfail.
    assert (Hin' : In t (map Spec.failure (omap failMatch (JS.split LF output)))).
    { destruct (omap failMatch (JS.split LF output)) as [|w names];
        [|exact Hin].
      destruct (JS.includes output "OK"); [|destruct Hin].
      destruct Hin as [<-|[]]. discriminate Hfail. }
    apply in_map_iff in Hin' as (w & <- & Hw).
    apply omap_In in Hw as (line & Hline & Hmatch).
    apply failMatch_spec in Hmatch.
    pose proof Hmatch as (tag & ws & rest & _ & _ & _ & _ & Hne & Hwc & _).
    repeat split; try assumption. now exists line.
Qed.

End LogFacts.

(** ** Tabs of the report modal *)

Module TabFacts.
Import ReportModal.

Lemma sections_of_tab (st : State) :
  In (activeTab st) tab_ids ->
  sections st =
    match renderBody st with
    | ReportTabs => [activeTab st]
    | _ => []
    end.
Proof.
  unfold sections. destruct (renderBody st); try reflexivity.
  unfold tab_ids. simpl.
  intros [H|[H|[H|[H|[H|[]]]]]]; rewrite <- H; reflexivity.
Qed.

Lemma step_keeps_tab (st st' : State) :
  step st st' -> In (activeTab st) tab_ids -> In (activeTab st') tab_ids.
Proof.
  intros [res s|id s Hbody Hid|i s Hcard|v i s Hcard Hexp]; simpl; auto.
  destruct res; auto.
Qed.

(** X20. In every state that the modal can reach from its first one, by
    the report request settling and by clicks on the controls that are on
    screen (tab buttons, headers of fix cards, the code toggle), the
    active tab is one of the five tabs; when the tabbed view is shown
    exactly one section of the report body is rendered, the one of the
    active tab, and while the request is in flight or in the empty state
    no section is rendered. *)
Theorem one_section_rendered (st : State) (Hreach : rtc step initial st) :
  In (activeTab st) tab_ids /\
  (renderBody st = ReportTabs -> sections st = [activeTab st]) /\
  (renderBody st <> ReportTabs -> sections st = []).
Proof.
  assert (Htab : In (activeTab st) tab_ids).
  { revert st Hreach.
    apply (rtc_ind_r (fun s => In (activeTab s) tab_ids)).
    - simpl. now left.
    - intros y z _ Hstep IH. now apply (step_keeps_tab y z). }
  pose proof (sections_of_tab st Htab) as Hsec.
  split; [exact Htab|]. split.
  - intros Hbody. now rewrite Hbody in Hsec.
  - intros Hbody. destruct (renderBody st); [assumption..|now destruct Hbody].
Qed.

Lemma one_section_rendered_witness :
  In (activeTab Samples.browsing) tab_ids /\
  (renderBody Samples.browsing = ReportTabs ->
   sections Samples.browsing = [activeTab Samples.browsing]) /\
  (renderBody Samples.browsing <> ReportTabs ->
   sections Samples.browsing = []).
Proof.
  apply (one_section_rendered Samples.browsing).
  apply (rtc_l _ _ (loadReport (Dashboard.Resolved Samples.fix_only_report)
                      initial)).
  - apply step_load.
  - apply rtc_once. apply step_tab; [reflexivity | simpl; auto].
Defined.

End TabFacts.

(** ** The live clock and the request paths *)

Module TickFacts.
Import Client Dashboard Api.
Import TextFacts DurationFacts.

(** X21. While a job is pending or queued and has no [ended_at], a tick
    of one second of the clock moves its duration on by exactly one
    second, from the creation time on. *)
Theorem running_clock_ticks (Date_parse : string -> option Z) (now : Z)
    (scan : ScanResult.t) (created : Z)
    (Hrunning : isRunning scan = true)
    (Hnot_ended : JS.truthy (ScanResult.ended_at scan) = false)
    (Hcreated : Date_parse (ScanResult.created_at scan) = Some created)
    (Hnow : created <= now) :
  Spec.seconds_of_text (getDuration Date_parse now scan) =
    Some ((now - created) / 1000) /\
  Spec.seconds_of_text (getDuration Date_parse (now + 1000) scan) =
    Some ((now - created) / 1000 + 1).
Proof.
  destruct (falsy_not_set scan Date_parse Hnot_ended) as [Hnone Hended].
  rewrite isRunning_running in Hrunning.
  assert (Hat : forall t, created <= t ->
            Spec.seconds_of_text (getDuration Date_parse t scan) =
            Some ((t - created) / 1000)).
  { intros t Ht.
    destruct (elapsedSeconds_rule Date_parse t scan created Hcreated Hended)
      as [E P].
    rewrite Hnone, Hrunning in E, P. unfold Spec.elapsed in E, P.
    rewrite Z.max_r in E, P by lia.
    unfold getDuration. rewrite E.
    rewrite formatSeconds_HH_MM_SS, seconds_of_HH_MM_SS by assumption.
    reflexivity. }
  split; [now apply Hat|].
  rewrite Hat by lia. f_equal.
  replace (now + 1000 - created) with (now - created + 1 * 1000) by lia.
  now rewrite Z.div_add by lia.
Qed.

Lemma running_clock_ticks_witness :
  Spec.seconds_of_text
    (getDuration Samples.parse 1704067265000 Samples.pending_job) =
    Some ((1704067265000 - 1704067200000) / 1000) /\
  Spec.seconds_of_text
    (getDuration Samples.parse (1704067265000 + 1000) Samples.pending_job) =
    Some ((1704067265000 - 1704067200000) / 1000 + 1).
Proof.
  apply (running_clock_ticks Samples.parse 1704067265000 Samples.pending_job
           1704067200000).
  - reflexivity.
  - reflexivity.
  - reflexivity.
  - lia.
Defined.

Lemma Z_toString_inj (a b : Z) : JS.Z_toString a = JS.Z_toString b -> a = b.
Proof.
  unfold JS.Z_toString. intros H.
  apply DecimalZ.to_int_inj.
  assert (Hisi : forall z, NilZero.int_of_string (NilZero.string_of_int (Z.to_int z))
                           = Some (Z.to_int z)).
  { intros z. apply NilZero.isi.
    - destruct z as [|p|p]; simpl; try discriminate.
      intros [= Hp]. now apply (DecimalPos.Unsigned.to_uint_nonnil p).
    - destruct z as [|p|p]; simpl; try discriminate.
      intros [= Hp]. now apply (DecimalPos.Unsigned.to_uint_nonnil p). }
  pose proof (Hisi a) as Ha. rewrite H, Hisi in Ha. congruence.
Qed.

Lemma append_inj_r (a b c : string) : a +:+ c = b +:+ c -> a = b.
Proof.
  revert b. induction a as [|x a IH]; intros [|y b] H.
  - reflexivity.
  - apply (f_equal String.length) in H.
    rewrite !length_append in H. simpl in H. lia.
  - apply (f_equal String.length) in H.
    rewrite !length_append in H. simpl in H. lia.
  - rewrite !append_cons in H. injection H as -> H. f_equal. now apply IH.
Qed.

Lemma job_path_inj (suffix : string) (a b : Z) :
  "/scans/" +:+ JS.Z_toString a +:+ suffix =
  "/scans/" +:+ JS.Z_toString b +:+ suffix -> a = b.
Proof.
  intros H. apply (inj (String.append "/scans/")) in H.
  apply append_inj_r in H. now apply Z_toString_inj.
Qed.

(** X22. The requests about a job are addressed by its id: two job ids
    that differ never give the same cancel path, logs path or report
    path. *)
Theorem job_paths_injective (a b : Z) :
  (cancelScan_path a = cancelScan_path b -> a = b) /\
  (getScanLogs_path a = getScanLogs_path b -> a = b) /\
  (getScanReport_path a = getScanReport_path b -> a = b).
Proof. repeat split; apply job_path_inj. Qed.

End TickFacts.
